(** * LdrToHdrCalibration: bracket detection of the Meshroom node

    A shallow embedding of [meshroom/nodes/aliceVision/LdrToHdrCalibration.py]:
    the metadata lookup [findMetadata], the exposure value [getExposure],
    the bracket detection of [LdrToHdrCalibration.update] and the command
    line of [processChunk].

    Python floats are IEEE 754 binary64 numbers: they are Rocq's primitive
    floats, on which [+], [*], [/] and [sqrt] round as Python's do.  Python
    integers are [Z].  Strings are sequences of bytes; [lower] acts on the
    ASCII letters.  An exception is a value of [exn]; code that can raise
    returns a [result]. *)

From Stdlib Require Import Floats ZArith List String Ascii Bool Lia.
From Stdlib Require Import Permutation Sorted Orders OrdersEx RelationClasses.
Import ListNotations.

Set Warnings "-inexact-float,-register-all".
Local Open Scope string_scope.
Local Open Scope list_scope.

(** ** Python values, exceptions *)

Inductive exn : Set :=
| TypeError
| ValueError
| OverflowError
| ZeroDivisionError.

Inductive result (A : Type) : Type :=
| Ok (a : A)
| Raise (e : exn).
Arguments Ok {A} a.
Arguments Raise {A} e.

Definition bind {A B : Type} (r : result A) (k : A -> result B) : result B :=
  match r with
  | Ok a => k a
  | Raise e => Raise e
  end.

Notation "x <- r ;; k" := (bind r (fun x => k))
  (at level 61, r at next level, right associativity).

(** A float object.  Python compares the items of two tuples with [is]
    before [==], and a set does the same with its elements, so that a NaN
    object is equal to itself.  The identity of an object only tells NaN
    objects apart: [json.loads] gives the one object [json.decoder.NaN] for
    every NaN of every blob and [float(x)] returns a float [x] itself,
    whereas [float] of a string or of an integer and [pow] make an object of
    their own.  [JsonNaN] is the shared object; [Float f] is an object of
    value [f], which is a NaN of its own when [f] is a NaN. *)
Inductive pyfloat : Set :=
| Float (f : float)
| JsonNaN.

Coercion Float : float >-> pyfloat.
Bind Scope float_scope with pyfloat.

Definition float_value (x : pyfloat) : float :=
  match x with
  | Float f => f
  | JsonNaN => nan
  end.

(** The object that [json.loads] gives for a number of value [f]. *)
Definition json_float (f : float) : pyfloat :=
  if is_nan f then JsonNaN else Float f.

(** [x is y or x == y] on float objects of two tuples. *)
Definition pyfloat_eqb (x y : pyfloat) : bool :=
  match x, y with
  | JsonNaN, JsonNaN => true
  | _, _ => (float_value x =? float_value y)%float
  end.

(** [x < y]. *)
Definition pyfloat_ltb (x y : pyfloat) : bool :=
  (float_value x <? float_value y)%float.

(** The scalar values [json.loads] produces, and the floats that [update]
    computes. *)
Inductive pyvalue : Set :=
| PyNone
| PyBool (b : bool)
| PyInt (z : Z)
| PyFloat (x : pyfloat)
| PyStr (s : string).

(** Truth value of a scalar ([if v], [not v]). *)
Definition truthy (v : pyvalue) : bool :=
  match v with
  | PyNone => false
  | PyBool b => b
  | PyInt z => negb (z =? 0)%Z
  | PyFloat x => negb (float_value x =? 0)%float
  | PyStr s => negb (s =? "")
  end.

(** [v == ""]. *)
Definition is_empty_str (v : pyvalue) : bool :=
  match v with
  | PyStr s => s =? ""
  | _ => false
  end.

(** [float(z)] of an integer: the nearest binary64 number, ties to even;
    [OverflowError] when it is out of range. *)
Definition float_of_int (z : Z) : result float :=
  let f := SF2Prim (binary_normalize prec emax z 0 false) in
  if is_infinity f then Raise OverflowError else Ok f.

(** Python's [a / b] on floats. *)
Definition py_div (a b : float) : result float :=
  if (b =? 0)%float then Raise ZeroDivisionError else Ok (a / b)%float.

(** [math.sqrt]. *)
Definition py_sqrt (x : float) : result float :=
  if (x <? 0)%float then Raise ValueError else Ok (PrimFloat.sqrt x).

(** [math.isfinite]. *)
Definition isfinite (x : float) : bool := is_finite x.

Section Builtins.

(** Two library functions are not given by the repository: the C library's
    [pow(2.0, y)], and the parser behind [float(s)] of a string ([None] when
    it rejects the string). *)
Variable libm_pow2 : float -> float.
Variable float_of_str : string -> option float.

(** [float(v)]: a float is returned as it is, the same object. *)
Definition py_float (v : pyvalue) : result pyfloat :=
  match v with
  | PyNone => Raise TypeError
  | PyBool b => Ok (Float (if b then 1 else 0))
  | PyInt z => f <- float_of_int z ;; Ok (Float f)
  | PyFloat x => Ok x
  | PyStr s =>
      match float_of_str s with
      | Some f => Ok (Float f)
      | None => Raise ValueError
      end
  end.

(** [v / 2.0]. *)
Definition py_half (v : pyvalue) : result float :=
  match v with
  | PyNone | PyStr _ => Raise TypeError
  | PyBool b => py_div (if b then 1 else 0)%float 2
  | PyInt z => x <- float_of_int z ;; py_div x 2
  | PyFloat x => py_div (float_value x) 2
  end.

(** [pow(2.0, y)]: a finite [y] whose power is out of range raises. *)
Definition py_pow2 (y : float) : result float :=
  let r := libm_pow2 y in
  if is_finite y && is_infinity r then Raise OverflowError else Ok r.

End Builtins.

(** ** Strings *)

Definition lower_ascii (c : ascii) : ascii :=
  let n := nat_of_ascii c in
  if (65 <=? n)%nat && (n <=? 90)%nat then ascii_of_nat (n + 32) else c.

(** [s.lower()]. *)
Fixpoint lower (s : string) : string :=
  match s with
  | EmptyString => EmptyString
  | String c s' => String (lower_ascii c) (lower s')
  end.

(** [s.replace(" ", "")]. *)
Fixpoint remove_spaces (s : string) : string :=
  match s with
  | EmptyString => EmptyString
  | String c s' =>
      if (c =? " ")%char then remove_spaces s' else String c (remove_spaces s')
  end.

(** [s.split(sep)] for a one-character separator. *)
Fixpoint split (sep : ascii) (s : string) : list string :=
  match s with
  | EmptyString => [EmptyString]
  | String c s' =>
      if (c =? sep)%char then EmptyString :: split sep s'
      else match split sep s' with
           | [] => [String c EmptyString]
           | h :: t => String c h :: t
           end
  end.

(** [s.split(sep)[-1]]. *)
Definition last_field (sep : ascii) (s : string) : string :=
  last (split sep s) EmptyString.

(** [p[:p.rfind('/') + 1]]. *)
Fixpoint dir_head (p : string) : string :=
  match p with
  | EmptyString => EmptyString
  | String c p' =>
      let h := dir_head p' in
      if negb (h =? "") then String c h
      else if (c =? "/")%char then "/" else ""
  end.

Fixpoint all_slashes (s : string) : bool :=
  match s with
  | EmptyString => true
  | String c s' => (c =? "/")%char && all_slashes s'
  end.

(** [s.rstrip('/')]. *)
Fixpoint rstrip_slash (s : string) : string :=
  match s with
  | EmptyString => EmptyString
  | String c s' =>
      let r := rstrip_slash s' in
      if (r =? "") && (c =? "/")%char then "" else String c r
  end.

(** [os.path.dirname] (posixpath). *)
Definition dirname (p : string) : string :=
  let head := dir_head p in
  if negb (head =? "") && negb (all_slashes head) then rstrip_slash head
  else head.

(** ** findMetadata *)

(** A metadata record: a [dict], whose items keep their insertion order and
    whose keys are distinct. *)
Definition metadata := list (string * pyvalue).

(** [d.get(key, None)]. *)
Fixpoint dict_get (d : metadata) (key : string) : pyvalue :=
  match d with
  | [] => PyNone
  | (k, v) :: d' => if k =? key then v else dict_get d' key
  end.

Definition is_none (v : pyvalue) : bool :=
  match v with
  | PyNone => true
  | _ => false
  end.

(** The inner loop [for dk, dv in d.items()] for one alias [key]: the value
    returned from inside the loop, if any. *)
Fixpoint scan_items (items : metadata) (key : string) : option pyvalue :=
  match items with
  | [] => None
  | (dk, dv) :: rest =>
      let k := lower key in
      let dkm := remove_spaces (lower dk) in
      if dkm =? lower key then Some dv
      else
        let dkm := last_field ":" dkm in
        let dkm := last_field "/" dkm in
        if dkm =? k then Some dv else scan_items rest key
  end.

Fixpoint findMetadata (d : metadata) (keys : list string)
    (defaultValue : pyvalue) : pyvalue :=
  match keys with
  | [] => defaultValue
  | key :: keys' =>
      let v := dict_get d key in
      if negb (is_none v) then v
      else match scan_items d key with
           | Some dv => dv
           | None => findMetadata d keys' defaultValue
           end
  end.

(** ** The lookup as the specification words it *)

(** The spelling of a record key that the loop compares with an alias: in
    lower case, without spaces, without the namespace prefix that ends at
    the last ":" and then at the last "/". *)
Definition normalized (dk : string) : string :=
  last_field "/" (last_field ":" (remove_spaces (lower dk))).


Fixpoint has_char (c : ascii) (s : string) : bool :=
  match s with
  | EmptyString => false
  | String c' s' => (c' =? c)%char || has_char c s'
  end.




(** ** getExposure *)

(** The tuple [(fnumber, shutterSpeed, iso)] of an image: three float
    objects. *)
Definition exposure : Set := (pyfloat * pyfloat * pyfloat)%type.

(** The values of the three objects, which is all that [getExposure]
    reads. *)
Definition exposure_values (exp : exposure) : float * float * float :=
  let '(fnumber, shutterSpeed, iso) := exp in
  (float_value fnumber, float_value shutterSpeed, float_value iso).

Definition getExposure (exp : float * float * float)
    (refIso refFnumber : float)
    : result float :=
  let '(fnumber, shutterSpeed, iso) := exp in
  let validShutterSpeed := (0 <? shutterSpeed)%float && isfinite shutterSpeed in
  let validFnumber := (0 <? fnumber)%float && isfinite fnumber in
  if negb validShutterSpeed && negb validFnumber then Ok (-1)%float
  else
    let validRefFnumber := (0 <? refFnumber)%float && isfinite refFnumber in
    let shutterSpeed :=
      if negb validShutterSpeed then (1 / 200)%float else shutterSpeed in
    let fnumber :=
      if negb validFnumber then
        if validRefFnumber then refFnumber else 2%float
      else fnumber in
    let lRefFnumber := if negb validRefFnumber then fnumber else refFnumber in
    isoToAperture <-
      (if (1e-6 <? iso)%float && (1e-6 <? refIso)%float then
         q <- py_div iso refIso ;; py_sqrt q
       else Ok 1%float) ;;
    let newFnumber := (fnumber * isoToAperture)%float in
    a <- py_div lRefFnumber newFnumber ;;
    b <- py_div lRefFnumber newFnumber ;;
    let expIncrease := (a * b)%float in
    Ok (shutterSpeed * expIncrease)%float.

(** The defaults of the signature. *)
Definition refIso_default : float := 100.
Definition refFnumber_default : float := 1.

Definition getExposure_default (exp : exposure) : result float :=
  getExposure (exposure_values exp) refIso_default refFnumber_default.

(** ** The exposure value as the specification words it *)

(** A shutter speed or an aperture is usable when it is a finite positive
    real. *)
Definition usable (x : float) : bool := (0 <? x)%float && isfinite x.

Definition substitutedShutterSpeed (shutterSpeed : float) : float :=
  if usable shutterSpeed then shutterSpeed else (1 / 200)%float.

Definition substitutedAperture (aperture refFnumber : float) : float :=
  if usable aperture then aperture
  else if usable refFnumber then refFnumber else 2%float.

Definition sensitivityFactor (sensitivity refIso : float) : result float :=
  if (1e-6 <? sensitivity)%float && (1e-6 <? refIso)%float then
    q <- py_div sensitivity refIso ;; py_sqrt q
  else Ok 1%float.

(** [shutterSpeed * (reference / aperture)^2]. *)
Definition scaledExposure (shutterSpeed reference aperture : float)
    : result float :=
  r <- py_div reference aperture ;;
  Ok (shutterSpeed * (r * r))%float.


(** The same with the reference the code takes: without a valid reference
    aperture, the aperture of the image before the sensitivity scales it. *)
Definition exposureValue_amended (exp : float * float * float)
    (refIso refFnumber : float)
    : result float :=
  let '(aperture, shutterSpeed, sensitivity) := exp in
  if negb (usable shutterSpeed) && negb (usable aperture) then Ok (-1)%float
  else
    k <- sensitivityFactor sensitivity refIso ;;
    let effectiveAperture :=
      (substitutedAperture aperture refFnumber * k)%float in
    let effectiveReferenceAperture :=
      if usable refFnumber then refFnumber
      else substitutedAperture aperture refFnumber in
    scaledExposure (substitutedShutterSpeed shutterSpeed)
                   effectiveReferenceAperture effectiveAperture.

(** ** Sorting

    [list.sort] and [sorted] are stable.  They are modelled by the stable
    insertion sort: each element goes before the first element of the sorted
    prefix that is greater than it.  Where [<] is a strict weak order on the
    elements, every stable sort returns this list, and so does [list.sort]:
    that is the case of the counts that [most_common] sorts, and of
    [inputs] when the paths are pairwise different or no field is NaN.
    Where a NaN leaves two tuples of one path unordered, the result of
    [list.sort] depends on the comparisons it happens to make, and this
    definition does not follow it: Python leaves [2, nan, 1] as it is, the
    insertion sort gives [1, 2, nan]. *)

Section InsertionSort.

Context {A : Type}.
Variable lt : A -> A -> bool.

Fixpoint insert (x : A) (l : list A) : list A :=
  match l with
  | [] => [x]
  | y :: l' => if lt x y then x :: y :: l' else y :: insert x l'
  end.

Definition sort (l : list A) : list A :=
  fold_left (fun acc x => insert x acc) l [].

(** [ordered a b]: [b] may follow [a], it is not smaller. *)
Definition ordered (a b : A) : Prop := lt b a = false.

End InsertionSort.

(** ** The tuples that are sorted *)

Definition input : Set := (string * exposure)%type.

(** [t1 == t2] on exposure tuples: item by item, by identity or value. *)
Definition exposure_eqb (t1 t2 : exposure) : bool :=
  let '(f1, s1, i1) := t1 in
  let '(f2, s2, i2) := t2 in
  pyfloat_eqb f1 f2 && pyfloat_eqb s1 s2 && pyfloat_eqb i1 i2.

(** [t1 < t2] on exposure tuples: the first components that are not equal
    decide. *)
Definition exposure_ltb (t1 t2 : exposure) : bool :=
  let '(f1, s1, i1) := t1 in
  let '(f2, s2, i2) := t2 in
  if negb (pyfloat_eqb f1 f2) then pyfloat_ltb f1 f2
  else if negb (pyfloat_eqb s1 s2) then pyfloat_ltb s1 s2
  else pyfloat_ltb i1 i2.

(** [a < b] on the tuples [(path, exposure)] of [inputs]. *)
Definition input_ltb (a b : input) : bool :=
  if negb (fst a =? fst b) then String.ltb (fst a) (fst b)
  else if negb (exposure_eqb (snd a) (snd b)) then exposure_ltb (snd a) (snd b)
  else false.

(** ** The grouping walk of [update] *)

Record walk : Set := mkWalk {
  exposureGroups : list (list exposure);
  exposures : list exposure;
  prevPath : option string;
  prevExposure : option float;
  newGroup : bool
}.

Definition walk_init : walk :=
  mkWalk [] [] None None false.

(** The condition [prevExposure and currentExposure < prevExposure]. *)
Definition wrapped (prev : option float) (current : float) : bool :=
  match prev with
  | None => false
  | Some p => negb (p =? 0)%float && (current <? p)%float
  end.

(** One iteration of [for path, exp in inputs]. *)
Definition walk_step (w : walk) (i : input) : result walk :=
  let '(path, exp) := i in
  let newGroup :=
    match prevPath w with
    | Some p => if negb (p =? dirname path) then true else newGroup w
    | None => newGroup w
    end in
  currentExposure <- getExposure_default exp ;;
  let '(groups, current) :=
    if wrapped (prevExposure w) currentExposure || newGroup
    then (exposureGroups w ++ [exposures w], [exp])
    else (exposureGroups w, exposures w ++ [exp]) in
  Ok (mkWalk groups current (Some (dirname path)) (Some currentExposure) false).

Fixpoint walk_loop (w : walk) (inputs : list input) : result walk :=
  match inputs with
  | [] => Ok w
  | i :: rest => w' <- walk_step w i ;; walk_loop w' rest
  end.

(** Lines 242 to 272: the exposure groups of the sorted inputs. *)
Definition groupExposures (inputs : list input)
    : result (list (list exposure)) :=
  w <- walk_loop walk_init inputs ;;
  Ok (exposureGroups w ++ [exposures w]).

(** ** The choice of the bracket size *)

(** [set(l)]: the elements of [l], one for each class of [==]; an element
    is left out when it is equal to another, by identity or value of its
    items. *)
Fixpoint py_set (l : list exposure) : list exposure :=
  match l with
  | [] => []
  | x :: l' =>
      let s := py_set l' in
      if existsb (exposure_eqb x) l' then s else x :: s
  end.

(** A [Counter]: the keys in the order of their first count. *)
Definition counter := list (nat * nat).

(** [c[k] += 1]. *)
Fixpoint count_one (k : nat) (c : counter) : counter :=
  match c with
  | [] => [(k, 1)]
  | (k', n) :: c' =>
      if (k =? k')%nat then (k', S n) :: c' else (k', n) :: count_one k c'
  end.

Definition bracketSizes (groups : list (list exposure)) : counter :=
  fold_left (fun c g => count_one (List.length g) c) groups [].

(** [c.most_common()]: [sorted(c.items(), key=itemgetter(1), reverse=True)]. *)
Definition most_common (c : counter) : list (nat * nat) :=
  sort (fun a b => (snd b <? snd a)%nat) c.

(** One iteration of the loop over [most_common()]. *)
Definition better (bestTuple : option (nat * nat)) (t : nat * nat)
    : option (nat * nat) :=
  match bestTuple with
  | None => Some t
  | Some b =>
      if (snd b <? snd t)%nat then Some t
      else if (snd t =? snd b)%nat then
             if (fst b <? fst t)%nat then Some t else Some b
           else Some b
  end.

Definition bestTuple (c : counter) : option (nat * nat) :=
  fold_left better (most_common c) None.

(** Lines 275 to 298: the value given to [nbBrackets]. *)
Definition selectBrackets (groups : list (list exposure)) : result Z :=
  match groups with
  | [g] =>
      if (List.length (py_set g) =? 1)%nat then Ok 1%Z
      else Ok (Z.of_nat (List.length g))
  | _ =>
      let sizes := bracketSizes groups in
      if (List.length sizes =? 0)%nat then Ok 0%Z
      else match bestTuple sizes with
           | Some t => Ok (Z.of_nat (fst t))
           | None => Raise TypeError
           end
  end.

(** ** The node and [update] *)

(** A viewpoint of the CameraInit node: the path of the image and its
    metadata blob, given by what [json.loads] decodes it to; [None] is the
    empty blob. *)
Record viewpoint : Set := mkViewpoint {
  vp_path : string;
  vp_metadata : option metadata
}.

(** The node an [input] attribute is linked to: its [viewpoints] attribute
    if it has one, and its [input] attribute if it has one, with the link of
    that attribute if it has one. *)
Inductive upstream : Set :=
| Upstream (viewpoints : option (list viewpoint))
           (input_attr : option (option upstream)).

Definition up_viewpoints (u : upstream) : option (list viewpoint) :=
  match u with
  | Upstream v _ => v
  end.

Definition up_input (u : upstream) : option (option upstream) :=
  match u with
  | Upstream _ i => i
  end.

(** The node that [update] reads and writes. *)
Record node : Set := mkNode {
  isInstance : bool;          (* isinstance(node.nodeDesc, cls) *)
  hasUserNbBrackets : bool;   (* "userNbBrackets" in node.getAttributes() *)
  userNbBrackets : Z;
  validValue : bool;          (* node.userNbBrackets.validValue *)
  nbBrackets : Z;
  input_link : option upstream (* node.input.getLinkParam(recursive=True) *)
}.

Definition set_validValue (b : bool) (n : node) : node :=
  mkNode (isInstance n) (hasUserNbBrackets n) (userNbBrackets n) b
         (nbBrackets n) (input_link n).

Definition set_nbBrackets (z : Z) (n : node) : node :=
  mkNode (isInstance n) (hasUserNbBrackets n) (userNbBrackets n)
         (validValue n) z (input_link n).

(** How a call of [update] ends, with the node as the call leaves it. *)
Inductive outcome : Set :=
| Returns (n : node)
| Raises (e : exn) (n : node).

(** What one iteration of [for viewpoint in viewpoints] does. *)
Inductive parsed : Set :=
| NoMetadata              (* nbBrackets = 0; return *)
| NoExposure              (* nbBrackets = 1; return *)
| Parsed (i : input).     (* inputs.append(...) *)

Section Update.

Variable libm_pow2 : float -> float.
Variable float_of_str : string -> option float.

(** Lines 221 to 228. *)
Definition readFnumber (d : metadata) : result pyvalue :=
  let fnumber := findMetadata d ["FNumber"] (PyStr "") in
  if is_empty_str fnumber then
    let aperture :=
      findMetadata d ["Exif:ApertureValue"; "ApertureValue"; "Aperture"]
                   (PyStr "") in
    if is_empty_str aperture then Ok (PyFloat (-1))
    else
      h <- py_half aperture ;;
      p <- py_pow2 libm_pow2 h ;;
      Ok (PyFloat p)
  else Ok fnumber.

(** Lines 214 to 239. *)
Definition parseViewpoint (vp : viewpoint) : result parsed :=
  match vp_metadata vp with
  | None => Ok NoMetadata
  | Some d =>
      fnumber <- readFnumber d ;;
      let shutterSpeed :=
        findMetadata d ["ExposureTime"; "Exif:ShutterSpeedValue";
                        "ShutterSpeedValue"; "ShutterSpeed"]
                     (PyFloat (-1)) in
      let iso :=
        findMetadata d ["Exif:PhotographicSensitivity";
                        "PhotographicSensitivity";
                        "Photographic Sensitivity"; "ISO"]
                     (PyFloat (-1)) in
      if negb (truthy fnumber) && negb (truthy shutterSpeed) then Ok NoExposure
      else
        f <- py_float float_of_str fnumber ;;
        s <- py_float float_of_str shutterSpeed ;;
        i <- py_float float_of_str iso ;;
        Ok (Parsed (vp_path vp, (f, s, i)))
  end.

(** The input a viewpoint gives when its iteration reaches [append]. *)
Definition inputOf (vp : viewpoint) : input :=
  match parseViewpoint vp with
  | Ok (Parsed i) => i
  | _ => (vp_path vp, (Float 0, Float 0, Float 0))
  end.

(** An integer whose nearest float is finite. *)
Definition int_in_range (z : Z) : bool :=
  negb (is_infinity (SF2Prim (binary_normalize prec emax z 0 false))).

(** A value that [float] accepts: a number in the range of the floats, or
    a string that the parser accepts. *)
Definition convertible (v : pyvalue) : bool :=
  match v with
  | PyNone => false
  | PyBool _ | PyFloat _ => true
  | PyInt z => int_in_range z
  | PyStr s =>
      match float_of_str s with
      | Some _ => true
      | None => false
      end
  end.

(** A number in the range of the floats. *)
Definition number (v : pyvalue) : bool :=
  match v with
  | PyBool _ | PyFloat _ => true
  | PyInt z => int_in_range z
  | PyNone | PyStr _ => false
  end.

(** Half of a number. *)
Definition half (v : pyvalue) : float :=
  match v with
  | PyBool b => ((if b then 1 else 0) / 2)%float
  | PyInt z => (SF2Prim (binary_normalize prec emax z 0 false) / 2)%float
  | PyFloat x => (float_value x / 2)%float
  | PyNone | PyStr _ => 0%float
  end.

(** An APEX aperture is a number, and the power of two of its half is in
    the range of the floats. *)
Definition apexInRange (aperture : pyvalue) : bool :=
  number aperture
  && negb (is_finite (half aperture) && is_infinity (libm_pow2 (half aperture))).

(** The fields of a record convert: the f-number, or without it the APEX
    aperture if there is one, the shutter speed and the sensitivity. *)
Definition fieldsConvert (d : metadata) : bool :=
  let fnumber := findMetadata d ["FNumber"] (PyStr "") in
  let aperture :=
    findMetadata d ["Exif:ApertureValue"; "ApertureValue"; "Aperture"]
                 (PyStr "") in
  let shutterSpeed :=
    findMetadata d ["ExposureTime"; "Exif:ShutterSpeedValue";
                    "ShutterSpeedValue"; "ShutterSpeed"]
                 (PyFloat (-1)) in
  let iso :=
    findMetadata d ["Exif:PhotographicSensitivity";
                    "PhotographicSensitivity";
                    "Photographic Sensitivity"; "ISO"]
                 (PyFloat (-1)) in
  (if is_empty_str fnumber
   then is_empty_str aperture || apexInRange aperture
   else convertible fnumber)
  && convertible shutterSpeed && convertible iso.

(** [getExposure] divides by 0.0 on an exposure tuple, for the default
    references: one of the two fields is usable, and the aperture scaled by
    the sensitivity is 0.0. *)
Definition dividesByZero (exp : exposure) : bool :=
  let '(fnumber, shutterSpeed, iso) := exposure_values exp in
  (usable shutterSpeed || usable fnumber)
  && match sensitivityFactor iso refIso_default with
     | Ok k =>
         (substitutedAperture fnumber refFnumber_default * k =? 0)%float
     | Raise _ => false
     end.

(** The data of a viewpoint let [update] go on: it has no metadata, or its
    fields convert and the aperture it gives, once scaled, is not 0.0. *)
Definition safe (vp : viewpoint) : Prop :=
  match vp_metadata vp with
  | None => True
  | Some d =>
      fieldsConvert d = true /\ dividesByZero (snd (inputOf vp)) = false
  end.

(** The iteration of a viewpoint reaches [append]. *)
Definition appended (vp : viewpoint) : Prop :=
  exists i, parseViewpoint vp = Ok (Parsed i).

(** The aperture and the shutter speed of a viewpoint are both present
    and false as Python values, the test of line 234. *)
Definition falsyExposure (vp : viewpoint) : Prop :=
  exists d fnumber,
    vp_metadata vp = Some d /\ readFnumber d = Ok fnumber /\
    truthy fnumber = false /\
    truthy (findMetadata d ["ExposureTime"; "Exif:ShutterSpeedValue";
                            "ShutterSpeedValue"; "ShutterSpeed"]
                         (PyFloat (-1))) = false.

(** A viewpoint on which no step raises; the proofs go through it. *)
Definition computable (vp : viewpoint) : Prop :=
  match parseViewpoint vp with
  | Raise _ => False
  | Ok (Parsed i) => exists e, getExposure_default (snd i) = Ok e
  | Ok _ => True
  end.

(** The loop of lines 212 to 239: the value given to [nbBrackets] by an
    early [return], or the list [inputs]. *)
Fixpoint parseViewpoints (vps : list viewpoint) (inputs : list input)
    : result (Z + list input) :=
  match vps with
  | [] => Ok (inr inputs)
  | vp :: rest =>
      p <- parseViewpoint vp ;;
      match p with
      | NoMetadata => Ok (inl 0%Z)
      | NoExposure => Ok (inl 1%Z)
      | Parsed i => parseViewpoints rest (inputs ++ [i])
      end
  end.

(** Lines 212 to 298: the automatic detection, from the viewpoints to the
    value given to [nbBrackets]. *)
Definition detectBrackets (vps : list viewpoint) : result Z :=
  r <- parseViewpoints vps [] ;;
  match r with
  | inl nb => Ok nb
  | inr inputs =>
      let inputs := sort input_ltb inputs in
      groups <- groupExposures inputs ;;
      selectBrackets groups
  end.

(** Lines 190 to 200: the number of brackets is forced by the user. *)
Definition forcedBrackets (n : node) (cameraInitOutput : upstream) : node :=
  let n :=
    match up_viewpoints cameraInitOutput with
    | Some viewpoints =>
        if negb (Z.of_nat (List.length viewpoints) mod userNbBrackets n =? 0)%Z
        then set_validValue false n
        else set_validValue true n
    | None => n
    end in
  set_nbBrackets (userNbBrackets n) n.

(** Lines 202 to 210: the viewpoints of the CameraInit node. *)
Definition findViewpoints (cameraInitOutput : upstream)
    : option (list viewpoint) :=
  let cameraInitOutput :=
    match up_viewpoints cameraInitOutput with
    | None =>
        match up_input cameraInitOutput with
        | Some link => link
        | None => Some cameraInitOutput
        end
    | Some _ => Some cameraInitOutput
    end in
  match cameraInitOutput with
  | Some u => up_viewpoints u
  | None => None
  end.

Definition update (n : node) : outcome :=
  if negb (isInstance n) then Raises ValueError n
  else if negb (hasUserNbBrackets n) then Returns n
  else
    let n := set_validValue true n in
    match input_link n with
    | None => Returns (set_nbBrackets 0 n)
    | Some cameraInitOutput =>
        if negb (userNbBrackets n =? 0)%Z
        then Returns (forcedBrackets n cameraInitOutput)
        else
          match findViewpoints cameraInitOutput with
          | None => Returns (set_nbBrackets 0 n)
          | Some viewpoints =>
              match detectBrackets viewpoints with
              | Ok nb => Returns (set_nbBrackets nb n)
              | Raise e => Raises e n
              end
          end
    end.

End Update.

(** ** processChunk *)

(** The command line that [processChunk] hands to the parent class; [None]
    when it returns before, for a single bracket. *)
Definition processChunk (n : node) : option string :=
  if (nbBrackets n =? 1)%Z then None
  else
    let commandLine := "aliceVision_LdrToHdrCalibration {allParams}" in
    let commandLine :=
      if (userNbBrackets n =? nbBrackets n)%Z
      then (commandLine ++ "{bracketsParams}")%string
      else commandLine in
    Some commandLine.

(** ** Definitions that the properties are stated with *)

(** The class of a number under [==]: the two zeros are one class, a NaN
    is in none. *)
Definition sf_class (x : spec_float) : option spec_float :=
  match x with
  | S754_nan => None
  | S754_zero _ => Some (S754_zero false)
  | _ => Some x
  end.

(** The sign bit of a number; a NaN has none. *)
Definition sf_neg (x : spec_float) : bool :=
  match x with
  | S754_zero s | S754_infinity s | S754_finite s _ _ => s
  | S754_nan => false
  end.

(** The exposures the walk has placed so far, in order. *)
Definition placed (w : walk) : list exposure :=
  List.concat (exposureGroups w) ++ exposures w.

(** The closed groups are not empty, and the current group is empty only
    before the first image. *)
Definition walk_inv (w : walk) : Prop :=
  Forall (fun g => g <> []) (exposureGroups w) /\
  (exposures w = [] ->
   prevPath w = None /\ prevExposure w = None /\ newGroup w = false).

(** [c[k]]. *)
Fixpoint count_of (k : nat) (c : counter) : nat :=
  match c with
  | [] => 0
  | (k', n) :: c' => if (k =? k')%nat then n else count_of k c'
  end.

(** The counter after the sizes [ks] are counted in [c]. *)
Definition tally (ks : list nat) (c : counter) : counter :=
  fold_left (fun c k => count_one k c) ks c.

(** The order in which the loop over [most_common()] compares two entries:
    by count, then by size. *)
Definition entry_le (t b : nat * nat) : Prop :=
  (snd t < snd b)%nat \/ (snd t = snd b /\ fst t <= fst b)%nat.

(** Stand-ins for the two library functions, for inputs that hold numbers
    and an FNumber, on which [update] calls neither. *)
Definition stub_pow2 : float -> float := fun _ => nan.
Definition stub_float_of_str : string -> option float := fun _ => None.

(** The node as a call of [update] leaves it. *)
Definition node_of (o : outcome) : node :=
  match o with
  | Returns n => n
  | Raises _ n => n
  end.

(** A viewpoint whose metadata give the three fields as numbers. *)
Definition shot (path : string) (fnumber exposureTime iso : float)
    : viewpoint :=
  mkViewpoint path (Some [("FNumber", PyFloat (json_float fnumber));
                          ("ExposureTime", PyFloat (json_float exposureTime));
                          ("ISO", PyFloat (json_float iso))]).

(** * Properties *)

(** ** The order of strings *)

Lemma string_compare_OT (a b : string) :
  String.compare a b = String_as_OT.compare a b.
Proof.
  revert b; induction a as [|c a IH]; intros [|d b]; simpl; reflexivity.
Qed.

Lemma string_ltb_lt (a b : string) :
  String.ltb a b = true <-> String_as_OT.lt a b.
Proof.
  unfold String.ltb, String_as_OT.lt. rewrite string_compare_OT.
  destruct (String_as_OT.compare a b); split; congruence.
Qed.

Lemma string_ltb_irrefl (a : string) : String.ltb a a = false.
Proof.
  destruct (String.ltb a a) eqn:E; auto.
  apply string_ltb_lt in E. exfalso. exact (irreflexivity E).
Qed.

Lemma string_ltb_trans (a b c : string) :
  String.ltb a b = true -> String.ltb b c = true -> String.ltb a c = true.
Proof.
  rewrite !string_ltb_lt. apply transitivity.
Qed.

Lemma string_ltb_asym (a b : string) :
  String.ltb a b = true -> String.ltb b a = false.
Proof.
  intros H. destruct (String.ltb b a) eqn:E; auto.
  pose proof (string_ltb_trans _ _ _ H E) as T.
  rewrite string_ltb_irrefl in T. discriminate.
Qed.

Lemma string_ltb_total (a b : string) :
  a <> b -> String.ltb b a = false -> String.ltb a b = true.
Proof.
  intros Hne H. unfold String.ltb in *.
  rewrite String.compare_antisym in H.
  destruct (String.compare a b) eqn:E; simpl in H; try congruence.
  apply String.compare_eq_iff in E. contradiction.
Qed.

(** ** The order of floats, from the specification of the primitives *)

Lemma SFcompare_antisym (x y : spec_float) :
  SFcompare y x = option_map CompOpp (SFcompare x y).
Proof.
  destruct x as [[|]|[|]| |[|] m e], y as [[|]|[|]| |[|] m' e'];
    simpl; try reflexivity;
    rewrite (Z.compare_antisym e e'); destruct (e ?= e')%Z; simpl;
    try reflexivity.
  all: change (Pos.compare_cont Eq m' m) with (Pos.compare m' m);
    change (Pos.compare_cont Eq m m') with (Pos.compare m m');
    rewrite (Pos.compare_antisym m m');
    destruct (Pos.compare m m'); reflexivity.
Qed.

Lemma float_ltb_asym (x y : float) :
  (x <? y)%float = true -> (y <? x)%float = false.
Proof.
  rewrite !FloatAxioms.ltb_spec. unfold SFltb. rewrite (SFcompare_antisym (Prim2SF x)).
  destruct (SFcompare (Prim2SF x) (Prim2SF y)) as [[]|]; simpl; congruence.
Qed.

Lemma float_eqb_sym (x y : float) : (x =? y)%float = (y =? x)%float.
Proof.
  rewrite !FloatAxioms.eqb_spec. unfold SFeqb. rewrite (SFcompare_antisym (Prim2SF x)).
  destruct (SFcompare (Prim2SF x) (Prim2SF y)) as [[]|]; reflexivity.
Qed.

Lemma SFeqb_class (x y : spec_float) :
  SFeqb x y = true <-> sf_class x = sf_class y /\ sf_class x <> None.
Proof.
  unfold SFeqb.
  destruct x as [[|]|[|]| |[|] m e], y as [[|]|[|]| |[|] m' e'];
    simpl; try (split; [ discriminate | intros [H H']; congruence ]);
    try (split; [ intros _; split; congruence | reflexivity ]).
  all: destruct (Z.compare_spec e e') as [He|He|He];
    try (split; [ discriminate | intros [H H']; injection H; lia ]).
  all: subst; change (Pos.compare_cont Eq m m') with (Pos.compare m m');
    destruct (Pos.compare_spec m m') as [Hm|Hm|Hm]; simpl;
    try (split; [ discriminate | intros [H H']; injection H; lia ]).
  all: subst; split; [ intros _; split; congruence | reflexivity ].
Qed.

Lemma float_eqb_trans (x y z : float) :
  (x =? y)%float = true -> (y =? z)%float = true -> (x =? z)%float = true.
Proof.
  rewrite !FloatAxioms.eqb_spec, !SFeqb_class. intros [H1 H2] [H3 H4]. split; congruence.
Qed.

Lemma float_eqb_refl_l (x y : float) :
  (x =? y)%float = true -> (x =? x)%float = true.
Proof.
  intros H. apply (float_eqb_trans x y x); auto.
  rewrite float_eqb_sym; auto.
Qed.

(** ** The stable insertion sort *)

Section SortFacts.

Context {A : Type}.
Variable lt : A -> A -> bool.

Lemma insert_perm (x : A) (l : list A) : Permutation (insert lt x l) (x :: l).
Proof.
  induction l as [|y l IH]; simpl; auto.
  destruct (lt x y); auto.
  rewrite IH. apply perm_swap.
Qed.

Lemma sort_from_perm (l acc : list A) :
  Permutation (fold_left (fun acc x => insert lt x acc) l acc) (acc ++ l).
Proof.
  revert acc; induction l as [|x l IH]; intros acc; simpl.
  - rewrite app_nil_r. reflexivity.
  - rewrite IH, insert_perm. apply Permutation_middle.
Qed.

Lemma sort_perm (l : list A) : Permutation (sort lt l) l.
Proof. exact (sort_from_perm l []). Qed.

Hypothesis lt_asym : forall a b, lt a b = true -> lt b a = false.

Lemma insert_hd (x a : A) (l : list A) :
  (ordered lt) a x -> HdRel (ordered lt) a l -> HdRel (ordered lt) a (insert lt x l).
Proof.
  intros Hax Hl. destruct l as [|y l]; simpl.
  - constructor; exact Hax.
  - destruct (lt x y); constructor; auto.
    inversion Hl; auto.
Qed.

Lemma insert_sorted (x : A) (l : list A) :
  Sorted (ordered lt) l -> Sorted (ordered lt) (insert lt x l).
Proof.
  induction 1 as [|y l Hs IH Hh]; simpl.
  - repeat constructor.
  - destruct (lt x y) eqn:E.
    + constructor; [ constructor; auto | constructor ].
      exact (lt_asym _ _ E).
    + constructor; auto. apply insert_hd; auto.
Qed.

Lemma sort_from_sorted (l acc : list A) :
  Sorted (ordered lt) acc ->
  Sorted (ordered lt) (fold_left (fun acc x => insert lt x acc) l acc).
Proof.
  revert acc; induction l as [|x l IH]; intros acc Hacc; simpl; auto.
  apply IH, insert_sorted, Hacc.
Qed.

Lemma sort_sorted (l : list A) : Sorted (ordered lt) (sort lt l).
Proof. apply sort_from_sorted. constructor. Qed.

End SortFacts.

(** Two lists in strictly ascending order that hold the same elements
    are the same list. *)
Lemma sorted_perm_unique {A : Type} (R : A -> A -> Prop)
    (R_irrefl : forall a, ~ R a a)
    (R_trans : forall a b c, R a b -> R b c -> R a c)
    (l1 l2 : list A) :
  StronglySorted R l1 -> StronglySorted R l2 -> Permutation l1 l2 -> l1 = l2.
Proof.
  intros H1; revert l2; induction H1 as [|x l1 Hs1 IH Hx]; intros l2 H2 HP.
  - apply Permutation_nil in HP. auto.
  - destruct H2 as [|y l2 Hs2 Hy].
    + symmetry in HP. apply Permutation_nil in HP. discriminate.
    + assert (x = y) as ->.
      { assert (In x (y :: l2)) as [E|Hin]
          by (eapply Permutation_in; [ exact HP | left; reflexivity ]); auto.
        assert (In y (x :: l1)) as [E|Hin']
          by (eapply Permutation_in;
              [ symmetry; exact HP | left; reflexivity ]); auto.
        rewrite Forall_forall in Hx, Hy.
        exfalso. apply (R_irrefl x). eauto. }
      f_equal. apply IH; auto. eapply Permutation_cons_inv; eauto.
Qed.

(** ** The order of the inputs *)

Lemma pyfloat_eqb_sym (x y : pyfloat) : pyfloat_eqb x y = pyfloat_eqb y x.
Proof.
  destruct x as [f|], y as [g|]; simpl; auto; apply float_eqb_sym.
Qed.

Lemma pyfloat_ltb_asym (x y : pyfloat) :
  pyfloat_ltb x y = true -> pyfloat_ltb y x = false.
Proof. apply float_ltb_asym. Qed.

Lemma exposure_eqb_sym (t1 t2 : exposure) :
  exposure_eqb t1 t2 = exposure_eqb t2 t1.
Proof.
  destruct t1 as [[f1 s1] i1], t2 as [[f2 s2] i2]; simpl.
  rewrite (pyfloat_eqb_sym f1), (pyfloat_eqb_sym s1), (pyfloat_eqb_sym i1).
  reflexivity.
Qed.

Lemma exposure_ltb_asym (t1 t2 : exposure) :
  exposure_ltb t1 t2 = true -> exposure_ltb t2 t1 = false.
Proof.
  destruct t1 as [[f1 s1] i1], t2 as [[f2 s2] i2]; simpl.
  rewrite (pyfloat_eqb_sym f2), (pyfloat_eqb_sym s2).
  destruct (pyfloat_eqb f1 f2); simpl; [ | apply pyfloat_ltb_asym ].
  destruct (pyfloat_eqb s1 s2); simpl; apply pyfloat_ltb_asym.
Qed.

Lemma input_ltb_asym (a b : input) :
  input_ltb a b = true -> input_ltb b a = false.
Proof.
  unfold input_ltb. rewrite (String.eqb_sym (fst b)), (exposure_eqb_sym (snd b)).
  destruct (fst a =? fst b); simpl; [ | apply string_ltb_asym ].
  destruct (exposure_eqb (snd a) (snd b)); simpl; auto.
  apply exposure_ltb_asym.
Qed.

(** The paths of a list that is in the order of [input_ltb] ascend. *)
Lemma ordered_paths (l : list input) :
  Sorted (ordered input_ltb) l ->
  Sorted (fun a b => String.leb a b = true) (map fst l).
Proof.
  induction 1 as [|a l Hs IH Hh]; simpl; constructor; auto.
  destruct Hh as [|b l Hab]; simpl; constructor.
  unfold ordered, input_ltb in Hab. unfold String.leb.
  destruct (String.eqb_spec (fst b) (fst a)) as [E|E]; simpl in Hab.
  - rewrite E. pose proof (String.compare_antisym (fst a) (fst a)) as H.
    destruct (String.compare (fst a) (fst a)); simpl in H; congruence.
  - assert (String.ltb (fst a) (fst b) = true) as H
      by (apply string_ltb_total; auto).
    unfold String.ltb in H. destruct (String.compare (fst a) (fst b));
      congruence.
Qed.

(** With distinct paths the paths alone decide the order. *)
Lemma ordered_distinct_paths (l : list input) :
  NoDup (map fst l) ->
  Sorted (ordered input_ltb) l ->
  StronglySorted (fun a b => String.ltb (fst a) (fst b) = true) l.
Proof.
  intros Hnd Hs. apply Sorted_StronglySorted.
  { intros a b c. apply string_ltb_trans. }
  induction Hs as [|a l Hs IH Hh]; constructor.
  - apply IH. inversion Hnd; auto.
  - destruct Hh as [|b l Hab]; constructor.
    unfold ordered, input_ltb in Hab.
    assert (fst a <> fst b) as Hne.
    { inversion Hnd as [|? ? Hnin _]; subst. simpl in Hnin.
      intros E. apply Hnin. left. auto. }
    destruct (String.eqb_spec (fst b) (fst a)) as [E|E]; simpl in Hab;
      [ congruence | ].
    apply string_ltb_total; auto.
Qed.

Lemma sort_inputs_permuted (l1 l2 : list input) :
  NoDup (map fst l1) -> Permutation l1 l2 ->
  sort input_ltb l1 = sort input_ltb l2.
Proof.
  intros Hnd HP.
  apply (sorted_perm_unique
           (fun a b : input => String.ltb (fst a) (fst b) = true)).
  - intros a. rewrite string_ltb_irrefl. discriminate.
  - intros a b c. apply string_ltb_trans.
  - apply ordered_distinct_paths.
    + eapply Permutation_NoDup; [ | exact Hnd ].
      apply Permutation_map. symmetry. apply sort_perm.
    + apply sort_sorted, input_ltb_asym.
  - apply ordered_distinct_paths.
    + eapply Permutation_NoDup; [ | exact Hnd ].
      apply Permutation_map. rewrite HP. symmetry. apply sort_perm.
    + apply sort_sorted, input_ltb_asym.
  - rewrite !sort_perm. exact HP.
Qed.

Lemma StronglySorted_map_fst (l : list input) :
  StronglySorted (fun a b => String.ltb (fst a) (fst b) = true) l ->
  StronglySorted (fun p q => String.ltb p q = true) (map fst l).
Proof.
  induction 1 as [|a l Hs IH Ha]; simpl; constructor; auto.
  rewrite Forall_forall in *. intros p Hp.
  apply in_map_iff in Hp. destruct Hp as [b [<- Hb]]. auto.
Qed.

Lemma sorted_paths_unique (l1 l2 : list input) :
  NoDup (map fst l1) -> Permutation (map fst l1) (map fst l2) ->
  map fst (sort input_ltb l1) = map fst (sort input_ltb l2).
Proof.
  intros Hnd HP.
  assert (NoDup (map fst l2)) as Hnd2 by (eapply Permutation_NoDup; eauto).
  apply (sorted_perm_unique (fun p q : string => String.ltb p q = true)).
  - intros a. rewrite string_ltb_irrefl. discriminate.
  - intros a b c. apply string_ltb_trans.
  - apply StronglySorted_map_fst, ordered_distinct_paths.
    + eapply Permutation_NoDup; [ | exact Hnd ].
      apply Permutation_map. symmetry. apply sort_perm.
    + apply sort_sorted, input_ltb_asym.
  - apply StronglySorted_map_fst, ordered_distinct_paths.
    + eapply Permutation_NoDup; [ | exact Hnd2 ].
      apply Permutation_map. symmetry. apply sort_perm.
    + apply sort_sorted, input_ltb_asym.
  - rewrite (Permutation_map fst (sort_perm input_ltb l1)).
    rewrite (Permutation_map fst (sort_perm input_ltb l2)). exact HP.
Qed.

(** C1, as amended: [inputs.sort()] sorts the tuples [(path, exposure)], so
    the path is the first key and the exposure triple only orders images of
    the same path.  The sorted list holds the inputs, no element is followed
    by a smaller one in the order of the tuples, and the paths ascend; when
    the paths are distinct the order is that of the paths, whatever the
    exposure triples are. *)
Theorem inputs_sorted_by_path_first (inputs : list input) :
  Permutation (sort input_ltb inputs) inputs /\
  Sorted (ordered input_ltb) (sort input_ltb inputs) /\
  Sorted (fun p q => String.leb p q = true) (map fst (sort input_ltb inputs)) /\
  (forall others : list input,
      NoDup (map fst inputs) ->
      Permutation (map fst inputs) (map fst others) ->
      map fst (sort input_ltb inputs) = map fst (sort input_ltb others)).
Proof.
  split; [ apply sort_perm | ].
  split; [ apply sort_sorted, input_ltb_asym | ].
  split; [ apply ordered_paths, sort_sorted, input_ltb_asym | ].
  intros others. apply sorted_paths_unique.
Qed.

(** C1, as stated, fails: two lists with the same exposure triples, sorted,
    give the triples in two orders, one of them descending. *)
Lemma sort_order_follows_paths :
  exposure_ltb (Float 1, Float 1, Float 100) (Float 2, Float 1, Float 100) = true /\
  map snd (sort input_ltb [("a.jpg", (Float 2, Float 1, Float 100));
                           ("b.jpg", (Float 1, Float 1, Float 100))])
  = [(Float 2, Float 1, Float 100); (Float 1, Float 1, Float 100)] /\
  map snd (sort input_ltb [("a.jpg", (Float 1, Float 1, Float 100));
                           ("b.jpg", (Float 2, Float 1, Float 100))])
  = [(Float 1, Float 1, Float 100); (Float 2, Float 1, Float 100)].
Proof. repeat split; vm_compute; reflexivity. Qed.

(** ** The sign of a product *)

Lemma binary_round_aux_sign (s : bool) (m e : Z) (l : SpecFloat.location) :
  sf_neg (binary_round_aux prec emax s m e l) = true -> s = true.
Proof.
  unfold binary_round_aux.
  destruct (shr_fexp prec emax m e l) as [mrs' e'].
  destruct (shr_fexp prec emax _ e' SpecFloat.loc_Exact) as [mrs'' e''].
  destruct (shr_m mrs''); simpl; auto; try discriminate.
  destruct (_ <=? _)%Z; simpl; auto.
Qed.

Lemma SFmul_sign (x y : spec_float) :
  sf_neg (SFmul prec emax x y) = true -> xorb (sf_neg x) (sf_neg y) = true.
Proof.
  destruct x as [s|s| |s m e], y as [s'|s'| |s' m' e']; simpl; auto;
    try discriminate.
  apply binary_round_aux_sign.
Qed.

Lemma float_mul_sign (x y : float) :
  sf_neg (Prim2SF (x * y)) = true ->
  xorb (sf_neg (Prim2SF x)) (sf_neg (Prim2SF y)) = true.
Proof. rewrite mul_spec. apply SFmul_sign. Qed.

Lemma float_pos_sign (x : float) :
  (0 <? x)%float = true -> sf_neg (Prim2SF x) = false.
Proof.
  rewrite FloatAxioms.ltb_spec. unfold SFltb.
  change (Prim2SF 0) with (S754_zero false).
  destruct (Prim2SF x) as [s|[|]| |[|] m e]; simpl; auto; discriminate.
Qed.


(** ** getExposure *)

Lemma substitutedShutterSpeed_sign (s : float) :
  sf_neg (Prim2SF (substitutedShutterSpeed s)) = false.
Proof.
  unfold substitutedShutterSpeed, usable.
  destruct (0 <? s)%float eqn:E; simpl; [ | reflexivity ].
  destruct (isfinite s); [ | reflexivity ].
  apply float_pos_sign, E.
Qed.


Lemma getExposure_eq (exp : float * float * float)
    (refIso refFnumber : float) :
  getExposure exp refIso refFnumber = exposureValue_amended exp refIso refFnumber.
Proof.
  destruct exp as [[f s] iso].
  unfold getExposure, exposureValue_amended, substitutedShutterSpeed,
    substitutedAperture, sensitivityFactor, scaledExposure, usable.
  destruct ((0 <? s)%float && isfinite s) eqn:Es,
           ((0 <? f)%float && isfinite f) eqn:Ef,
           ((0 <? refFnumber)%float && isfinite refFnumber) eqn:Er;
    simpl; try reflexivity.
  all: destruct ((1e-6 <? iso)%float && (1e-6 <? refIso)%float); simpl.
  all: try (destruct (py_div iso refIso) as [q|]; simpl; [ | reflexivity ];
            destruct (py_sqrt q) as [k|]; simpl; [ | reflexivity ]).
  all: try reflexivity.
  all: match goal with
       | |- context [py_div ?a ?b] => destruct (py_div a b); reflexivity
       end.
Qed.




(** ** The grouping walk *)

Lemma walk_init_inv : walk_inv walk_init.
Proof. split; [ constructor | auto ]. Qed.

Lemma walk_step_spec (w w' : walk) (i : input) :
  walk_inv w -> walk_step w i = Ok w' ->
  walk_inv w' /\ placed w' = placed w ++ [snd i] /\ exposures w' <> [].
Proof.
  intros [Hg He]. destruct i as [path exp]. unfold walk_step.
  destruct (getExposure_default exp) as [cur|]; simpl; [ | discriminate ].
  match goal with
  | |- context [if ?c then _ else _] => destruct c eqn:Ec
  end; intros [= <-]; unfold walk_inv, placed; simpl.
  - assert (exposures w <> []) as Hne.
    { intros E. destruct (He E) as (Hp & Hx & Hn).
      rewrite Hp, Hx, Hn in Ec. discriminate. }
    repeat split; try discriminate.
    + apply Forall_app. split; auto.
    + rewrite concat_app. simpl. rewrite ?app_nil_r, <- ?app_assoc. reflexivity.
  - assert (exposures w ++ [exp] <> []) as Hne
      by (intros E; apply app_eq_nil in E; destruct E; discriminate).
    split; [ split; [ exact Hg | intros E; contradiction ] | ].
    split; [ rewrite app_assoc; reflexivity | exact Hne ].
Qed.

Lemma walk_loop_spec (inputs : list input) (w w' : walk) :
  walk_inv w -> walk_loop w inputs = Ok w' ->
  walk_inv w' /\ placed w' = placed w ++ map snd inputs /\
  (inputs <> [] -> exposures w' <> []).
Proof.
  revert w; induction inputs as [|i inputs IH]; intros w Hw; simpl.
  - intros [= <-]. rewrite app_nil_r. repeat split; try apply Hw; congruence.
  - destruct (walk_step w i) as [w1|] eqn:E1; simpl; [ | discriminate ].
    intros H. destruct (walk_step_spec _ _ _ Hw E1) as (Hw1 & Hp1 & Hn1).
    destruct (IH _ Hw1 H) as (Hw' & Hp' & Hn').
    split; auto. split.
    + rewrite Hp', Hp1, <- app_assoc. reflexivity.
    + intros _. destruct inputs as [|j inputs]; [ | apply Hn'; discriminate ].
      simpl in H. injection H as <-. exact Hn1.
Qed.

Lemma walk_loop_total (inputs : list input) (w : walk) :
  Forall (fun i => exists e, getExposure_default (snd i) = Ok e) inputs ->
  exists w', walk_loop w inputs = Ok w'.
Proof.
  revert w; induction inputs as [|[path exp] inputs IH]; intros w H; simpl.
  - eauto.
  - inversion H as [|? ? [e He] Hrest]; subst. simpl in He.
    unfold walk_step. rewrite He. simpl.
    match goal with
    | |- context [if ?c then _ else _] => destruct c
    end; simpl; apply IH, Hrest.
Qed.

Lemma groupExposures_spec (inputs : list input) (groups : list (list exposure)) :
  groupExposures inputs = Ok groups ->
  List.concat groups = map snd inputs /\
  (inputs <> [] -> Forall (fun g => g <> []) groups).
Proof.
  unfold groupExposures.
  destruct (walk_loop walk_init inputs) as [w|] eqn:E; simpl; [ | discriminate ].
  intros [= <-].
  destruct (walk_loop_spec _ _ _ walk_init_inv E) as ([Hg _] & Hp & Hn).
  split.
  - rewrite concat_app. simpl. rewrite app_nil_r. exact Hp.
  - intros Hne. apply Forall_app. split; auto.
Qed.

Lemma groupExposures_total (inputs : list input) :
  Forall (fun i => exists e, getExposure_default (snd i) = Ok e) inputs ->
  exists groups, groupExposures inputs = Ok groups.
Proof.
  intros H. unfold groupExposures.
  destruct (walk_loop_total inputs walk_init H) as [w ->]. simpl. eauto.
Qed.

Lemma sort_not_nil {A : Type} (lt : A -> A -> bool) (l : list A) :
  l <> [] -> sort lt l <> [].
Proof.
  intros Hne E. apply Hne. apply Permutation_nil.
  rewrite <- E. apply sort_perm.
Qed.

(** C4, as amended: for every non-empty list of inputs whose exposure values
    can all be computed (no effective aperture is 0.0, on which
    [getExposure] divides), the walk over the sorted list returns groups
    that are all non-empty and whose concatenation is the sorted list of
    exposure triples, so it holds each triple of the input as many times as
    the input does. *)
Theorem grouping_partitions (inputs : list input) :
  inputs <> [] ->
  Forall (fun i => exists e, getExposure_default (snd i) = Ok e) inputs ->
  exists groups,
    groupExposures (sort input_ltb inputs) = Ok groups /\
    Forall (fun g => g <> []) groups /\
    List.concat groups = map snd (sort input_ltb inputs) /\
    Permutation (List.concat groups) (map snd inputs).
Proof.
  intros Hne Hall.
  assert (Forall (fun i => exists e, getExposure_default (snd i) = Ok e)
                 (sort input_ltb inputs)) as Hall'.
  { rewrite Forall_forall in *. intros i Hi. apply Hall.
    eapply Permutation_in; [ apply sort_perm | exact Hi ]. }
  destruct (groupExposures_total _ Hall') as [groups Hg].
  destruct (groupExposures_spec _ _ Hg) as [Hc Hn].
  exists groups. repeat split; auto.
  - apply Hn, sort_not_nil, Hne.
  - rewrite Hc. apply Permutation_map, sort_perm.
Qed.

Lemma grouping_partitions_witness :
  exists groups,
    groupExposures (sort input_ltb [("/d/b.jpg", (Float 2, Float 2, Float 100));
                                    ("/d/a.jpg", (Float 2, Float 1, Float 100));
                                    ("/d/c.jpg", (Float 2, Float 1, Float 100))])
    = Ok groups /\
    Forall (fun g => g <> []) groups /\
    List.concat groups
    = map snd (sort input_ltb [("/d/b.jpg", (Float 2, Float 2, Float 100));
                               ("/d/a.jpg", (Float 2, Float 1, Float 100));
                               ("/d/c.jpg", (Float 2, Float 1, Float 100))]) /\
    Permutation (List.concat groups)
                (map snd [("/d/b.jpg", (Float 2, Float 2, Float 100));
                          ("/d/a.jpg", (Float 2, Float 1, Float 100));
                          ("/d/c.jpg", (Float 2, Float 1, Float 100))]).
Proof.
  apply grouping_partitions.
  - discriminate.
  - repeat constructor; eexists; vm_compute; reflexivity.
Defined.

(** C4, as stated, fails: an aperture so small that the sensitivity-scaled
    aperture rounds to 0.0 passes the metadata checks, and the walk raises
    instead of returning groups. *)
Lemma grouping_raises_on_zero_aperture :
  getExposure_default (Float 5e-324, Float 1, Float 1) = Raise ZeroDivisionError /\
  groupExposures (sort input_ltb [("/d/a.jpg", (Float 5e-324, Float 1, Float 1))])
  = Raise ZeroDivisionError.
Proof. split; vm_compute; reflexivity. Qed.

(** ** The histogram of the group sizes and the choice in it *)

Lemma count_of_count_one (k k' : nat) (c : counter) :
  count_of k (count_one k' c)
  = if (k =? k')%nat then S (count_of k c) else count_of k c.
Proof.
  induction c as [|[k0 n] c IH]; simpl.
  - destruct (k =? k')%nat; reflexivity.
  - destruct (Nat.eqb_spec k' k0) as [->|Hne]; simpl.
    + destruct (k =? k0)%nat; reflexivity.
    + destruct (Nat.eqb_spec k k0) as [->|Hne'].
      * destruct (Nat.eqb_spec k0 k'); [ congruence | reflexivity ].
      * exact IH.
Qed.

Lemma count_one_keys (k' : nat) (c : counter) :
  NoDup (map fst c) -> NoDup (map fst (count_one k' c)) /\
  (forall k, In k (map fst (count_one k' c)) -> k = k' \/ In k (map fst c)).
Proof.
  induction c as [|[k0 n] c IH]; simpl; intros Hnd.
  - split; [ repeat constructor; auto | intros k [->|[]]; auto ].
  - inversion Hnd as [|? ? Hnin Hnd']; subst.
    destruct (Nat.eqb_spec k' k0) as [->|Hne]; simpl.
    + split; [ exact Hnd | intros k [->|H]; auto ].
    + destruct (IH Hnd') as [IH1 IH2]. split.
      * constructor; auto. intros Hin. apply IH2 in Hin.
        destruct Hin as [->|Hin]; auto.
      * intros k [->|Hin]; auto. apply IH2 in Hin. tauto.
Qed.

Lemma count_one_positive (k' : nat) (c : counter) :
  Forall (fun t => 1 <= snd t)%nat c ->
  Forall (fun t => 1 <= snd t)%nat (count_one k' c).
Proof.
  induction 1 as [|[k0 n] c Hn Hc IH]; simpl.
  - repeat constructor.
  - destruct (k' =? k0)%nat; constructor; simpl in *; auto; lia.
Qed.

Lemma bracketSizes_tally (groups : list (list exposure)) :
  bracketSizes groups = tally (map (@List.length exposure) groups) [].
Proof.
  unfold bracketSizes, tally. generalize (@nil (nat * nat)).
  induction groups as [|g groups IH]; intros c; simpl; auto.
Qed.

Lemma tally_spec (ks : list nat) (c : counter) :
  NoDup (map fst c) -> Forall (fun t => 1 <= snd t)%nat c ->
  NoDup (map fst (tally ks c)) /\
  Forall (fun t => 1 <= snd t)%nat (tally ks c) /\
  forall k, count_of k (tally ks c)
            = (count_of k c + count_occ Nat.eq_dec ks k)%nat.
Proof.
  revert c; induction ks as [|k' ks IH]; intros c Hnd Hpos; simpl.
  - repeat split; auto.
  - destruct (IH (count_one k' c)) as (H1 & H2 & H3).
    + apply count_one_keys, Hnd.
    + apply count_one_positive, Hpos.
    + repeat split; auto. intros k. rewrite H3, count_of_count_one.
      destruct (Nat.eq_dec k' k) as [->|Hne].
      * rewrite Nat.eqb_refl. lia.
      * destruct (Nat.eqb_spec k k'); [ congruence | lia ].
Qed.

Lemma count_of_In (k n : nat) (c : counter) :
  NoDup (map fst c) -> In (k, n) c -> count_of k c = n.
Proof.
  induction c as [|[k0 n0] c IH]; simpl; intros Hnd; [ tauto | ].
  inversion Hnd as [|? ? Hnin Hnd']; subst.
  intros [[= -> ->]|Hin].
  - rewrite Nat.eqb_refl. reflexivity.
  - destruct (Nat.eqb_spec k k0) as [->|Hne]; auto.
    exfalso. apply Hnin. apply in_map_iff. exists (k0, n). auto.
Qed.

Lemma In_count_of (k : nat) (c : counter) :
  (1 <= count_of k c)%nat -> In (k, count_of k c) c.
Proof.
  induction c as [|[k0 n0] c IH]; simpl; [ lia | ].
  destruct (Nat.eqb_spec k k0) as [->|Hne]; auto.
Qed.

Lemma entry_le_trans (a b c : nat * nat) :
  entry_le a b -> entry_le b c -> entry_le a c.
Proof. unfold entry_le. lia. Qed.

Lemma better_spec (b t : nat * nat) :
  exists r, better (Some b) t = Some r /\ (r = b \/ r = t) /\
            entry_le b r /\ entry_le t r.
Proof.
  unfold better, entry_le.
  destruct (Nat.ltb_spec (snd b) (snd t)).
  - exists t. repeat split; auto; lia.
  - destruct (Nat.eqb_spec (snd t) (snd b)).
    + destruct (Nat.ltb_spec (fst b) (fst t)).
      * exists t. repeat split; auto; lia.
      * exists b. repeat split; auto; lia.
    + exists b. repeat split; auto; lia.
Qed.

Lemma fold_better_spec (l : list (nat * nat)) (b : nat * nat) :
  exists r, fold_left better l (Some b) = Some r /\ In r (b :: l) /\
            forall t, In t (b :: l) -> entry_le t r.
Proof.
  revert b; induction l as [|t l IH]; intros b; cbn [fold_left].
  - exists b. repeat split; [ left; auto | ].
    intros t [<-|[]]. unfold entry_le. lia.
  - destruct (better_spec b t) as (r & -> & Hr & Hb & Ht).
    destruct (IH r) as (r' & -> & Hin & Hmax).
    exists r'. repeat split; auto.
    + destruct Hin as [<-|Hin]; [ destruct Hr as [->| ->] | ]; simpl; auto.
    + intros u [<-|[<-|Hu]].
      * eapply entry_le_trans; [ exact Hb | apply Hmax; left; auto ].
      * eapply entry_le_trans; [ exact Ht | apply Hmax; left; auto ].
      * apply Hmax. right. auto.
Qed.

Lemma bestTuple_spec (c : counter) :
  c <> [] ->
  exists r, bestTuple c = Some r /\ In r c /\
            forall t, In t c -> entry_le t r.
Proof.
  intros Hne. unfold bestTuple, most_common.
  set (lt := fun a b : nat * nat => (snd b <? snd a)%nat).
  pose proof (sort_perm lt c) as HP.
  destruct (sort lt c) as [|b l] eqn:E.
  - apply Permutation_nil in HP. contradiction.
  - simpl. destruct (fold_better_spec l b) as (r & -> & Hin & Hmax).
    exists r. repeat split; auto.
    + eapply Permutation_in; eauto.
    + intros t Ht. apply Hmax. eapply Permutation_in; [ | exact Ht ].
      symmetry. exact HP.
Qed.

(** The selector never reaches [bestTuple[0]] with [bestTuple] unset. *)
Lemma selectBrackets_total (groups : list (list exposure)) :
  exists nb, selectBrackets groups = Ok nb.
Proof.
  unfold selectBrackets.
  assert (forall c : counter,
             exists nb,
               (if (List.length c =? 0)%nat then Ok 0%Z
                else match bestTuple c with
                     | Some t => Ok (Z.of_nat (fst t))
                     | None => Raise TypeError
                     end) = Ok nb) as H.
  { intros [|t c]; simpl; [ eauto | ].
    destruct (bestTuple_spec (t :: c)) as (r & -> & _); [ discriminate | ].
    eauto. }
  destruct groups as [|g [|g' groups]]; auto.
  destruct (_ =? 1)%nat; eauto.
Qed.

Lemma bracketSizes_spec (groups : list (list exposure)) :
  let sizes := map (@List.length exposure) groups in
  NoDup (map fst (bracketSizes groups)) /\
  Forall (fun t => 1 <= snd t)%nat (bracketSizes groups) /\
  forall k, count_of k (bracketSizes groups) = count_occ Nat.eq_dec sizes k.
Proof.
  intros sizes. rewrite bracketSizes_tally.
  destruct (tally_spec sizes []) as (H1 & H2 & H3);
    [ constructor | constructor | ].
  repeat split; auto.
Qed.

(** C5: with two or more exposure groups, [nbBrackets] is a group size whose
    number of occurrences among the groups is the highest, and it is the
    largest of the sizes that occur that often; on the histogram
    {3: 2, 5: 2}, in either order of its entries, the choice is 5. *)
Theorem selected_size_most_frequent_then_largest
    (groups : list (list exposure)) :
  (2 <= List.length groups)%nat ->
  let occurrences := count_occ Nat.eq_dec (map (@List.length exposure) groups) in
  exists n : nat,
    selectBrackets groups = Ok (Z.of_nat n) /\
    In n (map (@List.length exposure) groups) /\
    (forall k, occurrences k <= occurrences n)%nat /\
    (forall k, occurrences k = occurrences n -> k <= n)%nat /\
    bestTuple [(3, 2); (5, 2)]%nat = Some (5, 2)%nat /\
    bestTuple [(5, 2); (3, 2)]%nat = Some (5, 2)%nat.
Proof.
  intros Hlen occurrences.
  destruct (bracketSizes_spec groups) as (Hnd & Hpos & Hcount).
  fold occurrences in Hcount.
  assert (bracketSizes groups <> []) as Hne.
  { destruct groups as [|g groups]; [ simpl in Hlen; lia | ].
    intros E. specialize (Hcount (List.length g)). rewrite E in Hcount.
    unfold occurrences in Hcount. simpl in Hcount.
    destruct (Nat.eq_dec (List.length g) (List.length g)); [ | congruence ].
    discriminate. }
  destruct (bestTuple_spec _ Hne) as ([n cnt] & Hbest & Hin & Hmax).
  assert (cnt = occurrences n) as Hcnt
    by (rewrite <- Hcount; symmetry; apply count_of_In; auto).
  assert (1 <= cnt)%nat as Hcnt1
    by (rewrite Forall_forall in Hpos; apply (Hpos _ Hin)).
  assert (forall k, (1 <= occurrences k)%nat ->
                    entry_le (k, occurrences k) (n, cnt)) as Hle.
  { intros k Hk. apply Hmax. rewrite <- Hcount in *. apply In_count_of, Hk. }
  exists n. split; [ | split; [ | split; [ | split ] ] ].
  - unfold selectBrackets.
    destruct groups as [|g [|g' groups]]; try (simpl in Hlen; lia).
    destruct (bracketSizes (g :: g' :: groups)) as [|t c] eqn:E;
      [ congruence | ].
    simpl List.length. simpl Nat.eqb. rewrite Hbest. reflexivity.
  - apply (count_occ_In Nat.eq_dec). fold occurrences. lia.
  - intros k. destruct (occurrences k) as [|m] eqn:Ek; [ lia | ].
    specialize (Hle k). rewrite Ek in Hle. unfold entry_le in Hle.
    simpl in Hle. lia.
  - intros k Ek. specialize (Hle k). unfold entry_le in Hle. simpl in Hle.
    lia.
  - split; reflexivity.
Qed.

Lemma selected_size_witness :
  exists n : nat,
    selectBrackets [[(Float 2, Float 1, Float 100)]; [(Float 2, Float 1, Float 100); (Float 2, Float 2, Float 100)];
                    [(Float 2, Float 1, Float 100); (Float 2, Float 2, Float 100)]]
    = Ok (Z.of_nat n) /\
    In n (map (@List.length exposure)
              [[(Float 2, Float 1, Float 100)]; [(Float 2, Float 1, Float 100); (Float 2, Float 2, Float 100)];
               [(Float 2, Float 1, Float 100); (Float 2, Float 2, Float 100)]]) /\
    (forall k,
        count_occ Nat.eq_dec
          (map (@List.length exposure)
               [[(Float 2, Float 1, Float 100)]; [(Float 2, Float 1, Float 100); (Float 2, Float 2, Float 100)];
                [(Float 2, Float 1, Float 100); (Float 2, Float 2, Float 100)]]) k
        <= count_occ Nat.eq_dec
          (map (@List.length exposure)
               [[(Float 2, Float 1, Float 100)]; [(Float 2, Float 1, Float 100); (Float 2, Float 2, Float 100)];
                [(Float 2, Float 1, Float 100); (Float 2, Float 2, Float 100)]]) n)%nat /\
    (forall k,
        count_occ Nat.eq_dec
          (map (@List.length exposure)
               [[(Float 2, Float 1, Float 100)]; [(Float 2, Float 1, Float 100); (Float 2, Float 2, Float 100)];
                [(Float 2, Float 1, Float 100); (Float 2, Float 2, Float 100)]]) k
        = count_occ Nat.eq_dec
          (map (@List.length exposure)
               [[(Float 2, Float 1, Float 100)]; [(Float 2, Float 1, Float 100); (Float 2, Float 2, Float 100)];
                [(Float 2, Float 1, Float 100); (Float 2, Float 2, Float 100)]]) n -> k <= n)%nat /\
    bestTuple [(3, 2); (5, 2)]%nat = Some (5, 2)%nat /\
    bestTuple [(5, 2); (3, 2)]%nat = Some (5, 2)%nat.
Proof.
  apply (selected_size_most_frequent_then_largest
           [[(Float 2, Float 1, Float 100)]; [(Float 2, Float 1, Float 100); (Float 2, Float 2, Float 100)];
            [(Float 2, Float 1, Float 100); (Float 2, Float 2, Float 100)]]).
  simpl. lia.
Defined.

(** ** A single group *)

Lemma float_eqb_nan (x : float) : (x =? nan)%float = false.
Proof.
  rewrite FloatAxioms.eqb_spec. unfold SFeqb.
  change (Prim2SF nan) with S754_nan.
  destruct (Prim2SF x) as [| | |]; reflexivity.
Qed.

Lemma pyfloat_eqb_trans (x y z : pyfloat) :
  pyfloat_eqb x y = true -> pyfloat_eqb y z = true -> pyfloat_eqb x z = true.
Proof.
  destruct x as [f|], y as [g|], z as [h|]; simpl; auto;
    try apply float_eqb_trans;
    try (rewrite float_eqb_nan; discriminate);
    try (rewrite float_eqb_sym, float_eqb_nan; discriminate).
Qed.

Lemma exposure_eqb_trans (t1 t2 t3 : exposure) :
  exposure_eqb t1 t2 = true -> exposure_eqb t2 t3 = true ->
  exposure_eqb t1 t3 = true.
Proof.
  destruct t1 as [[f1 s1] i1], t2 as [[f2 s2] i2], t3 as [[f3 s3] i3]; simpl.
  rewrite !andb_true_iff. intros [[Hf Hs] Hi] [[Hf' Hs'] Hi'].
  repeat split; eapply pyfloat_eqb_trans; eauto.
Qed.

Lemma py_set_nil (l : list exposure) : py_set l = [] -> l = [].
Proof.
  induction l as [|x l IH]; simpl; auto.
  destruct (existsb (exposure_eqb x) l) eqn:E; [ | discriminate ].
  intros H. rewrite (IH H) in E. discriminate.
Qed.

(** A set of one element: the list is one element long, or all its
    elements are equal to one of them. *)
Lemma py_set_singleton (l : list exposure) :
  List.length (py_set l) = 1%nat ->
  List.length l = 1%nat \/
  exists z, Forall (fun x => exposure_eqb x z = true) l.
Proof.
  induction l as [|x l IH]; simpl; [ discriminate | ].
  destruct (existsb (exposure_eqb x) l) eqn:E; simpl.
  - intros H. apply existsb_exists in E. destruct E as (w & Hw & Hxw).
    destruct (IH H) as [Hl|[z Hz]].
    + destruct l as [|w' [|? ?]]; try discriminate.
      destruct Hw as [->|[]]. right. exists w. repeat constructor; auto.
      apply (exposure_eqb_trans w x w); auto.
      rewrite exposure_eqb_sym. exact Hxw.
    + right. exists z. constructor; auto.
      rewrite Forall_forall in Hz. apply (exposure_eqb_trans x w z); auto.
  - intros [= H]. apply length_zero_iff_nil, py_set_nil in H. subst.
    left. reflexivity.
Qed.

(** C10: when the walk yields one group in which two exposure triples
    differ and one is repeated, [nbBrackets] is the number of images of the
    group, which is the number of images; the value comes from the branch
    of the single group, where no histogram is built. *)
Theorem single_mixed_group_counts_images
    (inputs : list input) (g : list exposure) (x y : exposure) (i j : nat) :
  groupExposures inputs = Ok [g] ->
  In x g -> In y g -> exposure_eqb x y = false ->
  i <> j -> nth_error g i = nth_error g j -> (i < List.length g)%nat ->
  selectBrackets [g] = Ok (Z.of_nat (List.length g)) /\
  List.length g = List.length inputs.
Proof.
  intros Hg Hx Hy Hxy _ _ _. split.
  - unfold selectBrackets.
    destruct (Nat.eqb_spec (List.length (py_set g)) 1) as [E|E]; auto.
    destruct (py_set_singleton g E) as [-> |[z Hz]]; [ reflexivity | ].
    rewrite Forall_forall in Hz.
    assert (exposure_eqb x y = true); [ | congruence ].
    apply (exposure_eqb_trans x z y); auto.
    rewrite exposure_eqb_sym. auto.
  - apply groupExposures_spec in Hg. destruct Hg as [Hc _].
    simpl in Hc. rewrite app_nil_r in Hc. rewrite Hc, length_map. reflexivity.
Qed.

Lemma single_mixed_group_witness :
  selectBrackets [[(Float 2, Float 1, Float 100); (Float 2, Float 1, Float 100); (Float 2, Float 2, Float 100)]]
  = Ok (Z.of_nat (List.length
                    [(Float 2, Float 1, Float 100); (Float 2, Float 1, Float 100); (Float 2, Float 2, Float 100)])) /\
  List.length [(Float 2, Float 1, Float 100); (Float 2, Float 1, Float 100); (Float 2, Float 2, Float 100)]
  = List.length [("/d/a.jpg", (Float 2, Float 1, Float 100));
                 ("/d/b.jpg", (Float 2, Float 1, Float 100));
                 ("/d/c.jpg", (Float 2, Float 2, Float 100))].
Proof.
  apply (single_mixed_group_counts_images
           [("/d/a.jpg", (Float 2, Float 1, Float 100)); ("/d/b.jpg", (Float 2, Float 1, Float 100));
            ("/d/c.jpg", (Float 2, Float 2, Float 100))]
           [(Float 2, Float 1, Float 100); (Float 2, Float 1, Float 100); (Float 2, Float 2, Float 100)]
           (Float 2, Float 1, Float 100) (Float 2, Float 2, Float 100) 0 1).
  - vm_compute. reflexivity.
  - simpl. auto.
  - simpl. auto.
  - vm_compute. reflexivity.
  - discriminate.
  - reflexivity.
  - simpl. lia.
Defined.

(** ** update *)

Section UpdateFacts.

Variable libm_pow2 : float -> float.
Variable float_of_str : string -> option float.

Local Abbreviation parseViewpoint := (parseViewpoint libm_pow2 float_of_str).
Local Abbreviation parseViewpoints :=
  (parseViewpoints libm_pow2 float_of_str).
Local Abbreviation detectBrackets := (detectBrackets libm_pow2 float_of_str).
Local Abbreviation update := (update libm_pow2 float_of_str).
Local Abbreviation inputOf := (inputOf libm_pow2 float_of_str).
Local Abbreviation computable := (computable libm_pow2 float_of_str).

Lemma parseViewpoint_path (vp : viewpoint) (i : input) :
  parseViewpoint vp = Ok (Parsed i) -> fst i = vp_path vp.
Proof.
  unfold parseViewpoint. destruct (vp_metadata vp) as [d|]; [ | discriminate ].
  destruct (readFnumber libm_pow2 d) as [fnumber|]; simpl; [ | discriminate ].
  destruct (negb (truthy fnumber) && _); [ discriminate | ].
  destruct (py_float float_of_str fnumber); simpl; [ | discriminate ].
  destruct (py_float float_of_str _); simpl; [ | discriminate ].
  destruct (py_float float_of_str _); simpl; [ | discriminate ].
  intros [= <-]. reflexivity.
Qed.

Lemma inputOf_path (vp : viewpoint) : fst (inputOf vp) = vp_path vp.
Proof.
  unfold inputOf. destruct (parseViewpoint vp) as [[| |i]|] eqn:E; auto.
  apply parseViewpoint_path, E.
Qed.

Lemma parseViewpoints_all_parsed (vps : list viewpoint) (acc : list input) :
  Forall (fun vp => exists i, parseViewpoint vp = Ok (Parsed i)) vps ->
  parseViewpoints vps acc = Ok (inr (acc ++ map inputOf vps)).
Proof.
  revert acc; induction vps as [|vp vps IH]; intros acc H; simpl.
  - rewrite app_nil_r. reflexivity.
  - inversion H as [|? ? [i Hi] Hrest]; subst.
    unfold inputOf at 1. rewrite Hi. simpl.
    rewrite (IH _ Hrest), <- app_assoc. reflexivity.
Qed.

Lemma parseViewpoints_computable (vps : list viewpoint) (acc : list input) :
  Forall computable vps ->
  Forall (fun i => exists e, getExposure_default (snd i) = Ok e) acc ->
  (exists nb, parseViewpoints vps acc = Ok (inl nb) /\ (nb = 0 \/ nb = 1)%Z) \/
  (exists inputs, parseViewpoints vps acc = Ok (inr inputs) /\
     Forall (fun i => exists e, getExposure_default (snd i) = Ok e) inputs).
Proof.
  revert acc; induction vps as [|vp vps IH]; intros acc H Hacc; simpl.
  - right. eauto.
  - inversion H as [|? ? Hvp Hrest]; subst. unfold computable in Hvp.
    destruct (parseViewpoint vp) as [[| |i]|]; simpl; try contradiction.
    + left. eauto.
    + left. eauto.
    + apply IH; auto. apply Forall_app. split; auto.
Qed.

Lemma detectBrackets_computable (vps : list viewpoint) :
  Forall computable vps -> exists nb, detectBrackets vps = Ok nb.
Proof.
  intros H. unfold detectBrackets.
  destruct (parseViewpoints_computable vps [] H) as
    [(nb & -> & _)|(inputs & -> & Hin)]; [ constructor | simpl; eauto | ].
  simpl.
  assert (Forall (fun i => exists e, getExposure_default (snd i) = Ok e)
                 (sort input_ltb inputs)) as Hs.
  { rewrite Forall_forall in *. intros i Hi. apply Hin.
    eapply Permutation_in; [ apply sort_perm | exact Hi ]. }
  destruct (groupExposures_total _ Hs) as [groups ->]. simpl.
  apply selectBrackets_total.
Qed.

(** C2, a defect of the code: an image that resolves neither its aperture
    nor its shutter speed carries the sentinel -1.0 in both fields, which is
    a true value in the test of line 234; the loop goes on to [append], and
    with a second image of the same directory [update] builds one group of
    two exposures and reports 2 instead of 1. *)
Theorem unresolved_exposure_not_reported :
  parseViewpoint (mkViewpoint "/d/a.jpg" (Some [("Make", PyStr "x")]))
  = Ok (Parsed ("/d/a.jpg", (Float (-1), Float (-1), Float (-1)))) /\
  update
    (mkNode true true 0 true 0
       (Some (Upstream
                (Some [mkViewpoint "/d/a.jpg" (Some [("Make", PyStr "x")]);
                       mkViewpoint "/d/b.jpg"
                         (Some [("FNumber", PyFloat 2.8);
                                ("ExposureTime", PyFloat 0.01)])])
                None)))
  = Returns
      (mkNode true true 0 true 2
         (Some (Upstream
                  (Some [mkViewpoint "/d/a.jpg" (Some [("Make", PyStr "x")]);
                         mkViewpoint "/d/b.jpg"
                           (Some [("FNumber", PyFloat 2.8);
                                  ("ExposureTime", PyFloat 0.01)])])
                  None))).
Proof. split; vm_compute; reflexivity. Qed.

(** C6, as amended: when the input of the node is linked, a nonzero
    user-forced count is given to [nbBrackets] as it is, by the branch that
    runs no detection, whatever the metadata of the viewpoints; the validity
    flag is true exactly when the count divides the number of viewpoints of
    the linked node, or that node has no viewpoints. *)
Theorem forced_count_is_reported (n : node) (cameraInitOutput : upstream) :
  isInstance n = true -> hasUserNbBrackets n = true ->
  userNbBrackets n <> 0%Z -> input_link n = Some cameraInitOutput ->
  exists n',
    update n = Returns n' /\
    n' = forcedBrackets (set_validValue true n) cameraInitOutput /\
    nbBrackets n' = userNbBrackets n /\
    (validValue n' = true <->
     forall viewpoints,
       up_viewpoints cameraInitOutput = Some viewpoints ->
       (Z.of_nat (List.length viewpoints) mod userNbBrackets n = 0)%Z).
Proof.
  intros Hi Hu Hn Hl. unfold update. rewrite Hi, Hu. simpl. rewrite Hl.
  destruct (Z.eqb_spec (userNbBrackets n) 0) as [E|_]; [ contradiction | ].
  simpl. eexists. split; [ reflexivity | ]. split; [ reflexivity | ].
  unfold forcedBrackets. simpl.
  destruct (up_viewpoints cameraInitOutput) as [vps|]; simpl.
  - destruct (Z.eqb_spec (Z.of_nat (List.length vps) mod userNbBrackets n) 0)
      as [E|E]; simpl; split; auto.
    + split; auto. intros _ v [= <-]. exact E.
    + split; [ discriminate | ]. intros H. exfalso. apply E, H. reflexivity.
  - split; auto. split; auto. discriminate.
Qed.

(** C8, as amended: the detection is a function of the list of viewpoints;
    it gives the same result on a permutation of the list when the paths
    are distinct and every viewpoint reaches [append], that is when no
    viewpoint ends the loop by an early return or an exception. *)
Theorem detection_permutation_invariant (vps vps' : list viewpoint) :
  Permutation vps vps' ->
  NoDup (map vp_path vps) ->
  Forall (fun vp => exists i, parseViewpoint vp = Ok (Parsed i)) vps ->
  detectBrackets vps = detectBrackets vps'.
Proof.
  intros HP Hnd Hall.
  assert (Forall (fun vp => exists i, parseViewpoint vp = Ok (Parsed i)) vps')
    as Hall'.
  { rewrite Forall_forall in *. intros vp Hvp. apply Hall.
    eapply Permutation_in; [ symmetry; exact HP | exact Hvp ]. }
  unfold detectBrackets.
  rewrite (parseViewpoints_all_parsed vps [] Hall).
  rewrite (parseViewpoints_all_parsed vps' [] Hall'). simpl.
  rewrite (sort_inputs_permuted (map inputOf vps) (map inputOf vps')).
  - reflexivity.
  - rewrite map_map. rewrite (map_ext _ vp_path inputOf_path). exact Hnd.
  - apply Permutation_map, HP.
Qed.

End UpdateFacts.

(** ** Instances *)

(** Scenarios of the specification. *)
Example three_views_one_exposure :
  detectBrackets stub_pow2 stub_float_of_str
    [shot "/d/a.jpg" 2.8 (1 / 200) 100; shot "/d/b.jpg" 2.8 (1 / 200) 100;
     shot "/d/c.jpg" 2.8 (1 / 200) 100] = Ok 1%Z.
Proof. vm_compute. reflexivity. Qed.

Example one_view_five_exposures :
  detectBrackets stub_pow2 stub_float_of_str
    [shot "/d/a.jpg" 2.8 0.001 100; shot "/d/b.jpg" 2.8 0.002 100;
     shot "/d/c.jpg" 2.8 0.004 100; shot "/d/d.jpg" 2.8 0.008 100;
     shot "/d/e.jpg" 2.8 0.016 100] = Ok 5%Z.
Proof. vm_compute. reflexivity. Qed.

Example two_directories_of_three :
  detectBrackets stub_pow2 stub_float_of_str
    [shot "/d1/a.jpg" 2.8 0.001 100; shot "/d1/b.jpg" 2.8 0.002 100;
     shot "/d1/c.jpg" 2.8 0.004 100; shot "/d2/a.jpg" 2.8 0.001 100;
     shot "/d2/b.jpg" 2.8 0.002 100; shot "/d2/c.jpg" 2.8 0.004 100]
  = Ok 3%Z.
Proof. vm_compute. reflexivity. Qed.

Lemma forced_count_witness :
  exists n',
    update stub_pow2 stub_float_of_str
      (mkNode true true 4 true 0
         (Some (Upstream (Some (repeat (mkViewpoint "/d/a.jpg" None) 10))
                         None)))
    = Returns n' /\
    n' = forcedBrackets
           (set_validValue true
              (mkNode true true 4 true 0
                 (Some (Upstream
                          (Some (repeat (mkViewpoint "/d/a.jpg" None) 10))
                          None))))
           (Upstream (Some (repeat (mkViewpoint "/d/a.jpg" None) 10)) None) /\
    nbBrackets n' = 4%Z /\
    (validValue n' = true <->
     forall viewpoints,
       Some (repeat (mkViewpoint "/d/a.jpg" None) 10) = Some viewpoints ->
       (Z.of_nat (List.length viewpoints) mod 4 = 0)%Z).
Proof.
  apply (forced_count_is_reported stub_pow2 stub_float_of_str
           (mkNode true true 4 true 0
              (Some (Upstream (Some (repeat (mkViewpoint "/d/a.jpg" None) 10))
                              None)))
           (Upstream (Some (repeat (mkViewpoint "/d/a.jpg" None) 10)) None)).
  - reflexivity.
  - reflexivity.
  - discriminate.
  - reflexivity.
Defined.

(** C6, as stated, fails: with no link on the input, [update] returns
    before it reads the user-forced count and reports 0. *)
Lemma forced_count_needs_link :
  userNbBrackets (mkNode true true 4 true 7 None) = 4%Z /\
  forall libm_pow2 float_of_str,
    update libm_pow2 float_of_str (mkNode true true 4 true 7 None)
    = Returns (mkNode true true 4 true 0 None).
Proof. split; reflexivity. Qed.

Lemma detection_permutation_witness :
  detectBrackets stub_pow2 stub_float_of_str
    [shot "/d/a.jpg" 2 1 100; shot "/d/b.jpg" 2 2 100]
  = detectBrackets stub_pow2 stub_float_of_str
      [shot "/d/b.jpg" 2 2 100; shot "/d/a.jpg" 2 1 100].
Proof.
  apply detection_permutation_invariant.
  - apply perm_swap.
  - repeat constructor; simpl; intuition discriminate.
  - repeat constructor; eexists; vm_compute; reflexivity.
Defined.

(** C8, as stated, fails: the loop over the viewpoints stops at the first
    one that has no metadata (0) or no exposure (1), so the order decides;
    and two images of one path whose triples a NaN leaves unordered stay in
    the order of the list, which decides where a group ends. *)
Lemma detection_depends_on_order :
  Permutation
    [mkViewpoint "/d/a.jpg" None;
     mkViewpoint "/d/b.jpg" (Some [("FNumber", PyInt 0);
                                   ("ExposureTime", PyInt 0)])]
    [mkViewpoint "/d/b.jpg" (Some [("FNumber", PyInt 0);
                                   ("ExposureTime", PyInt 0)]);
     mkViewpoint "/d/a.jpg" None] /\
  (forall libm_pow2 float_of_str,
      detectBrackets libm_pow2 float_of_str
        [mkViewpoint "/d/a.jpg" None;
         mkViewpoint "/d/b.jpg" (Some [("FNumber", PyInt 0);
                                       ("ExposureTime", PyInt 0)])]
      = Ok 0%Z /\
      detectBrackets libm_pow2 float_of_str
        [mkViewpoint "/d/b.jpg" (Some [("FNumber", PyInt 0);
                                       ("ExposureTime", PyInt 0)]);
         mkViewpoint "/d/a.jpg" None]
      = Ok 1%Z) /\
  (forall libm_pow2 float_of_str,
      detectBrackets libm_pow2 float_of_str
        [shot "/d/a.jpg" nan 2 100; shot "/d/a.jpg" 1 1 100] = Ok 1%Z /\
      detectBrackets libm_pow2 float_of_str
        [shot "/d/a.jpg" 1 1 100; shot "/d/a.jpg" nan 2 100] = Ok 2%Z).
Proof.
  split; [ apply perm_swap | ].
  split; intros; split; vm_compute; reflexivity.
Qed.

(** ** findMetadata *)


















(** * Further properties *)

(** ** findMetadata: composition, provenance, missing keys *)

Lemma dict_get_from_record (d : metadata) (key : string) :
  dict_get d key = PyNone \/
  (In (key, dict_get d key) d /\ In (dict_get d key) (map snd d)).
Proof.
  induction d as [|[k v] d IH]; simpl; auto.
  destruct (String.eqb_spec k key) as [->|Hne]; [ right; auto | ].
  destruct IH as [IH|[IH1 IH2]]; auto.
Qed.

Lemma scan_items_from_record (d : metadata) (key : string) (v : pyvalue) :
  scan_items d key = Some v ->
  exists dk, In (dk, v) d /\
             (remove_spaces (lower dk) = lower key \/
              normalized dk = lower key).
Proof.
  induction d as [|[dk dv] d IH]; simpl; [ discriminate | ].
  fold (normalized dk).
  destruct (String.eqb_spec (remove_spaces (lower dk)) (lower key)) as [E|E].
  - intros [= <-]. exists dk. auto.
  - destruct (String.eqb_spec (normalized dk) (lower key)) as [E'|E'].
    + intros [= <-]. exists dk. auto.
    + intros H. destruct (IH H) as (dk' & Hin & Hm). exists dk'. auto.
Qed.

(** X1: looking a list of aliases up, then a second list, is looking the
    first list up with the result of the second as the default: an alias
    is only tried when all the aliases before it have failed. *)
Theorem findMetadata_app (d : metadata) (keys1 keys2 : list string)
    (defaultValue : pyvalue) :
  findMetadata d (keys1 ++ keys2) defaultValue
  = findMetadata d keys1 (findMetadata d keys2 defaultValue).
Proof.
  induction keys1 as [|key keys1 IH]; simpl; auto.
  destruct (negb (is_none (dict_get d key))); auto.
  destruct (scan_items d key); auto.
Qed.

(** X2: [findMetadata] invents no value: it returns the default or a value
    that the record holds. *)
Theorem findMetadata_default_or_stored (d : metadata) (keys : list string)
    (defaultValue : pyvalue) :
  findMetadata d keys defaultValue = defaultValue \/
  In (findMetadata d keys defaultValue) (map snd d).
Proof.
  induction keys as [|key keys IH]; simpl; auto.
  destruct (is_none (dict_get d key)) eqn:Ev; simpl.
  - destruct (scan_items d key) as [v|] eqn:Es; auto.
    right. destruct (scan_items_from_record _ _ _ Es) as (dk & Hin & _).
    apply in_map_iff. exists (dk, v). auto.
  - destruct (dict_get_from_record d key) as [E|[_ H]]; auto.
    rewrite E in Ev. discriminate.
Qed.






(** ** The normal form of a key *)


















(** ** getExposure: what it raises, the sign of its value *)

Lemma SFdiv_sign (x y : spec_float) :
  sf_neg (SFdiv prec emax x y) = true -> xorb (sf_neg x) (sf_neg y) = true.
Proof.
  destruct x as [s|s| |s m e], y as [s'|s'| |s' m' e']; simpl; auto;
    try discriminate.
  destruct (SFdiv_core_binary prec emax _ _ _ _) as [[mz ez] lz].
  apply binary_round_aux_sign.
Qed.

Lemma float_div_sign (x y : float) :
  sf_neg (Prim2SF (x / y)) = true ->
  xorb (sf_neg (Prim2SF x)) (sf_neg (Prim2SF y)) = true.
Proof. rewrite div_spec. apply SFdiv_sign. Qed.

Lemma float_not_neg (x : float) :
  sf_neg (Prim2SF x) = false -> (x <? 0)%float = false.
Proof.
  rewrite FloatAxioms.ltb_spec. unfold SFltb.
  change (Prim2SF 0) with (S754_zero false).
  destruct (Prim2SF x) as [s|[|]| |[|] m e]; simpl; auto; discriminate.
Qed.

(** A number above the threshold of the sensitivity is positive. *)
Lemma float_above_threshold (x : float) :
  (1e-6 <? x)%float = true ->
  (x =? 0)%float = false /\ sf_neg (Prim2SF x) = false.
Proof.
  rewrite FloatAxioms.ltb_spec, FloatAxioms.eqb_spec. unfold SFltb, SFeqb.
  change (Prim2SF 0) with (S754_zero false).
  destruct (Prim2SF 1e-6) as [s0|s0| |s0 m0 e0] eqn:E0;
    try (vm_compute in E0; discriminate).
  assert (s0 = false) as -> by (vm_compute in E0; congruence).
  destruct (Prim2SF x) as [s|[|]| |[|] m e]; simpl; auto; discriminate.
Qed.

Lemma sensitivityFactor_total (iso refIso : float) :
  exists k, sensitivityFactor iso refIso = Ok k.
Proof.
  unfold sensitivityFactor.
  destruct (1e-6 <? iso)%float eqn:Ei; simpl; [ | eauto ].
  destruct (1e-6 <? refIso)%float eqn:Er; simpl; [ | eauto ].
  destruct (float_above_threshold _ Ei) as [_ Hi].
  destruct (float_above_threshold _ Er) as [Hr0 Hr].
  unfold py_div. rewrite Hr0. simpl. unfold py_sqrt.
  rewrite float_not_neg; [ eauto | ].
  destruct (sf_neg (Prim2SF (iso / refIso))) eqn:E; auto.
  apply float_div_sign in E. rewrite Hi, Hr in E. discriminate.
Qed.

(** X5: [getExposure] raises nothing but [ZeroDivisionError]: the square
    root is never taken of a negative number, and the division of the
    sensitivities is guarded.  It raises exactly when one of the two fields
    is usable and the aperture, scaled by the sensitivity, is 0.0. *)
Theorem getExposure_raises_zero_division_only
    (f s iso refIso refFnumber : float) :
  (forall e, getExposure (f, s, iso) refIso refFnumber = Raise e ->
             e = ZeroDivisionError) /\
  (getExposure (f, s, iso) refIso refFnumber = Raise ZeroDivisionError <->
   (usable s = true \/ usable f = true) /\
   exists k, sensitivityFactor iso refIso = Ok k /\
             (substitutedAperture f refFnumber * k =? 0)%float = true).
Proof.
  rewrite getExposure_eq. unfold exposureValue_amended.
  destruct (sensitivityFactor_total iso refIso) as [k Hk]. rewrite Hk.
  simpl. unfold scaledExposure, py_div.
  destruct (usable s) eqn:Es, (usable f) eqn:Ef; simpl.
  4: { split; [ discriminate | ].
       split; [ discriminate | intros [[?|?] _]; discriminate ]. }
  all: destruct (substitutedAperture f refFnumber * k =? 0)%float eqn:E0;
    simpl; (split; [ intros e [= <-]; reflexivity || discriminate
                   | split; [ intros H | intros [_ [k' [[= <-] H]]] ] ]);
    try discriminate; try reflexivity; try congruence.
  all: split; [ auto | exists k; auto ].
Qed.

Lemma scaled_square_sign (s q : float) :
  sf_neg (Prim2SF s) = false -> sf_neg (Prim2SF (s * (q * q))) = false.
Proof.
  intros Hs. destruct (sf_neg (Prim2SF (s * (q * q)))) eqn:H; auto.
  apply float_mul_sign in H. rewrite Hs in H. simpl in H.
  apply float_mul_sign in H. destruct (sf_neg (Prim2SF q)); discriminate.
Qed.

(** X6: the exposure value is never negative, but for the sentinel -1.0 of
    an image with neither field usable: a value that [getExposure] returns
    is -1.0 for such an image, and is not below zero otherwise. *)
Theorem getExposure_not_negative (f s iso refIso refFnumber v : float) :
  getExposure (f, s, iso) refIso refFnumber = Ok v ->
  (usable s = false /\ usable f = false /\ v = (-1)%float) \/
  ((usable s = true \/ usable f = true) /\ (v <? 0)%float = false).
Proof.
  rewrite getExposure_eq. unfold exposureValue_amended.
  destruct (usable s) eqn:Es, (usable f) eqn:Ef; simpl.
  4: { intros [= <-]. left. auto. }
  all: destruct (sensitivityFactor iso refIso) as [k|]; simpl;
    [ | discriminate ].
  all: unfold scaledExposure, py_div;
    match goal with
    | |- context [if ?c then _ else _] => destruct c
    end; simpl; [ discriminate | ].
  all: intros [= <-]; right; split; auto.
  all: apply float_not_neg, scaled_square_sign, substitutedShutterSpeed_sign.
Qed.

Lemma getExposure_not_negative_witness :
  (usable 0.01 = false /\ usable 2.8 = false /\
   0.0012755102040816328%float = (-1)%float) \/
  ((usable 0.01 = true \/ usable 2.8 = true) /\
   (0.0012755102040816328 <? 0)%float = false).
Proof.
  apply (getExposure_not_negative 2.8 0.01 (-1) 100 1).
  vm_compute. reflexivity.
Defined.

(** ** dirname *)

Lemma dir_head_none (s : string) : has_char "/" s = false -> dir_head s = "".
Proof.
  induction s as [|c s IH]; simpl; auto.
  destruct (c =? "/")%char; simpl; [ discriminate | ].
  intros Hs. rewrite (IH Hs). reflexivity.
Qed.

Lemma dir_head_join (dir file : string) :
  has_char "/" file = false ->
  dir_head (dir ++ String "/" file)%string = (dir ++ "/")%string.
Proof.
  intros Hf. induction dir as [|c dir IH]; simpl.
  - rewrite (dir_head_none _ Hf). reflexivity.
  - rewrite IH. destruct dir; reflexivity.
Qed.

Lemma rstrip_slash_end (dir : string) :
  rstrip_slash (dir ++ "/")%string = rstrip_slash dir.
Proof.
  induction dir as [|c dir IH]; simpl; auto.
  rewrite IH. reflexivity.
Qed.

Lemma all_slashes_end (dir : string) :
  all_slashes (dir ++ "/")%string = all_slashes dir.
Proof.
  induction dir as [|c dir IH]; simpl; auto.
  rewrite IH. reflexivity.
Qed.

(** X7: the directory of [dir/file], for a file name without "/" and a
    directory that is not made of "/" only, is [dir] without its trailing
    "/"; and two files of one directory have the same directory, so they
    never make the dataset boundary of the walk. *)
Theorem dirname_join (dir file : string) :
  has_char "/" file = false ->
  (all_slashes dir = false ->
   dirname (dir ++ String "/" file)%string = rstrip_slash dir) /\
  (forall file', has_char "/" file' = false ->
                 dirname (dir ++ String "/" file')%string
                 = dirname (dir ++ String "/" file)%string).
Proof.
  intros Hf. split.
  - intros Hd. unfold dirname. rewrite (dir_head_join _ _ Hf).
    rewrite all_slashes_end, Hd, rstrip_slash_end.
    destruct dir; reflexivity.
  - intros file' Hf'. unfold dirname.
    rewrite (dir_head_join _ _ Hf), (dir_head_join _ _ Hf'). reflexivity.
Qed.

Lemma dirname_join_witness :
  (all_slashes "/data/set1" = false ->
   dirname ("/data/set1" ++ String "/" "img_0001.jpg")%string
   = rstrip_slash "/data/set1") /\
  (forall file', has_char "/" file' = false ->
                 dirname ("/data/set1" ++ String "/" file')%string
                 = dirname ("/data/set1" ++ String "/" "img_0001.jpg")%string).
Proof. apply dirname_join. reflexivity. Defined.

(** ** The walk: runs and dataset boundaries *)

(** [e2] may follow [e1] in a group: it is not smaller. *)
Definition not_below (e1 e2 : float) : Prop := (e2 <? e1)%float = false.

Lemma walk_one_run (D : string) (inputs : list input) (es : list float)
    (w : walk) :
  newGroup w = false ->
  (forall p, prevPath w = Some p -> p = D) ->
  (forall p, prevExposure w = Some p -> HdRel not_below p es) ->
  Forall (fun i => dirname (fst i) = D) inputs ->
  Forall2 (fun i e => getExposure_default (snd i) = Ok e) inputs es ->
  Sorted not_below es ->
  exists w',
    walk_loop w inputs = Ok w' /\ exposureGroups w' = exposureGroups w /\
    exposures w' = exposures w ++ map snd inputs.
Proof.
  intros Hn Hp He Hd Hex. revert w Hn Hp He Hd.
  induction Hex as [|[path exp] e inputs es Hie Hex IH];
    intros w Hn Hp He Hd Hs; simpl.
  - exists w. rewrite app_nil_r. auto.
  - apply Forall_cons_iff in Hd. destruct Hd as [Hpath Hd'].
    apply Sorted_inv in Hs. destruct Hs as [Hs' Hh].
    simpl in Hpath, Hie. unfold walk_step. rewrite Hie. simpl.
    assert (match prevPath w with
            | Some p => if negb (p =? dirname path) then true else newGroup w
            | None => newGroup w
            end = false) as ->.
    { destruct (prevPath w) as [p|] eqn:Ep; auto.
      rewrite (Hp p eq_refl), Hpath, String.eqb_refl. auto. }
    assert (wrapped (prevExposure w) e = false) as ->.
    { unfold wrapped. destruct (prevExposure w) as [p|] eqn:Ee; auto.
      specialize (He p eq_refl). inversion He as [|? ? Hr]; subst.
      unfold not_below in Hr. rewrite Hr. apply andb_false_r. }
    simpl.
    destruct (IH (mkWalk (exposureGroups w) (exposures w ++ [exp])
                         (Some (dirname path)) (Some e) false))
      as (w' & Hw' & Hg & Hx); simpl; auto.
    + intros p [= <-]. exact Hpath.
    + intros p [= <-]. exact Hh.
    + exists w'. simpl in Hg, Hx. repeat split; auto.
      rewrite Hx, <- app_assoc. reflexivity.
Qed.

(** X8: images of one directory whose exposure values never decrease in
    the sorted order make one group, which holds them all in order. *)
Theorem ascending_run_is_one_group (D : string) (inputs : list input)
    (es : list float) :
  Forall (fun i => dirname (fst i) = D) inputs ->
  Forall2 (fun i e => getExposure_default (snd i) = Ok e) inputs es ->
  Sorted not_below es ->
  groupExposures inputs = Ok [map snd inputs].
Proof.
  intros Hd Hex Hs. unfold groupExposures.
  destruct (walk_one_run D inputs es walk_init) as (w' & -> & Hg & Hx);
    simpl; auto; try discriminate.
  simpl in Hg, Hx. rewrite Hg, Hx. reflexivity.
Qed.

Lemma ascending_run_witness :
  groupExposures [("/d/a.jpg", (Float 2, Float 1, Float 100));
                  ("/d/b.jpg", (Float 2, Float 2, Float 100));
                  ("/d/c.jpg", (Float 2, Float 4, Float 100))]
  = Ok [map snd [("/d/a.jpg", (Float 2, Float 1, Float 100));
                 ("/d/b.jpg", (Float 2, Float 2, Float 100));
                 ("/d/c.jpg", (Float 2, Float 4, Float 100))]].
Proof.
  apply (ascending_run_is_one_group "/d" _ [0.25; 0.5; 1]%float).
  - repeat constructor.
  - repeat constructor; vm_compute; reflexivity.
  - repeat constructor; vm_compute; reflexivity.
Defined.

(** The walk with the groups [P] closed before it starts. *)
Definition after_groups (P : list (list exposure)) (w : walk) : walk :=
  mkWalk (P ++ exposureGroups w) (exposures w) (prevPath w) (prevExposure w)
         (newGroup w).

Lemma walk_step_after_groups (P : list (list exposure)) (w : walk) (i : input) :
  walk_step (after_groups P w) i
  = w' <- walk_step w i ;; Ok (after_groups P w').
Proof.
  destruct i as [path exp]. unfold walk_step. simpl.
  destruct (getExposure_default exp) as [cur|]; simpl; auto.
  match goal with
  | |- context [if ?c then _ else _] => destruct c
  end; unfold after_groups; simpl; rewrite ?app_assoc; reflexivity.
Qed.

Lemma walk_loop_after_groups (P : list (list exposure)) (l : list input)
    (w : walk) :
  walk_loop (after_groups P w) l
  = w' <- walk_loop w l ;; Ok (after_groups P w').
Proof.
  revert w; induction l as [|i l IH]; intros w; simpl; auto.
  rewrite walk_step_after_groups.
  destruct (walk_step w i) as [w1|]; simpl; auto.
Qed.

Lemma walk_loop_app (l1 l2 : list input) (w : walk) :
  walk_loop w (l1 ++ l2) = w' <- walk_loop w l1 ;; walk_loop w' l2.
Proof.
  revert w; induction l1 as [|i l1 IH]; intros w; simpl; auto.
  destruct (walk_step w i) as [w1|]; simpl; auto.
Qed.

Lemma walk_loop_last (l : list input) (a : input) (w w' : walk) :
  walk_loop w (l ++ [a]) = Ok w' ->
  prevPath w' = Some (dirname (fst a)) /\ newGroup w' = false.
Proof.
  rewrite walk_loop_app. destruct (walk_loop w l) as [w1|]; simpl;
    [ | discriminate ].
  destruct a as [path exp]. unfold walk_step.
  destruct (getExposure_default exp) as [cur|]; simpl; [ | discriminate ].
  match goal with
  | |- context [if ?c then _ else _] => destruct c
  end; intros [= <-]; auto.
Qed.

(** X9: a change of directory cuts the walk in two: when the last image of
    a first list and the first image of a second list are in two
    directories, the groups of the two lists together are the groups of
    the first list followed by the groups of the second. *)
Theorem directory_boundary_splits_walk (l1 l2 : list input) (a b : input)
    (g1 g2 : list (list exposure)) :
  dirname (fst a) <> dirname (fst b) ->
  groupExposures (l1 ++ [a]) = Ok g1 ->
  groupExposures (b :: l2) = Ok g2 ->
  groupExposures ((l1 ++ [a]) ++ b :: l2) = Ok (g1 ++ g2).
Proof.
  intros Hne H1 H2. unfold groupExposures in *.
  destruct (walk_loop walk_init (l1 ++ [a])) as [w1|] eqn:E1; simpl in H1;
    [ | discriminate ].
  injection H1 as <-.
  destruct (walk_loop_last _ _ _ _ E1) as [Hp Hn].
  rewrite (walk_loop_app (l1 ++ [a])), E1. simpl in *.
  destruct b as [path exp]. unfold walk_step in *. rewrite Hp. simpl in *.
  destruct (getExposure_default exp) as [cur|]; simpl in *; [ | discriminate ].
  destruct (String.eqb_spec (dirname (fst a)) (dirname path)) as [E|_];
    [ contradiction | ].
  simpl. rewrite orb_true_r. cbn [bind].
  replace (mkWalk (exposureGroups w1 ++ [exposures w1]) [exp]
                  (Some (dirname path)) (Some cur) false)
    with (after_groups (exposureGroups w1 ++ [exposures w1])
            (mkWalk [] [exp] (Some (dirname path)) (Some cur) false))
    by (unfold after_groups; simpl; rewrite app_nil_r; reflexivity).
  rewrite walk_loop_after_groups.
  destruct (walk_loop _ l2) as [w2|]; simpl in *; [ | discriminate ].
  injection H2 as <-. rewrite <- app_assoc. reflexivity.
Qed.

Lemma directory_boundary_witness :
  groupExposures (([("/d1/a.jpg", (Float 2, Float 1, Float 100))]
                   ++ [("/d1/b.jpg", (Float 2, Float 2, Float 100))])
                  ++ ("/d2/a.jpg", (Float 2, Float 4, Float 100))
                     :: [("/d2/b.jpg", (Float 2, Float 8, Float 100))])
  = Ok ([[(Float 2, Float 1, Float 100); (Float 2, Float 2, Float 100)]]
        ++ [[(Float 2, Float 4, Float 100); (Float 2, Float 8, Float 100)]]).
Proof.
  apply directory_boundary_splits_walk.
  - vm_compute. discriminate.
  - vm_compute. reflexivity.
  - vm_compute. reflexivity.
Defined.

(** ** The choice of the size: regular brackets, order of the groups *)

(** The number of groups of size [k]. *)
Definition occurrences (groups : list (list exposure)) (k : nat) : nat :=
  count_occ Nat.eq_dec (map (@List.length exposure) groups) k.

Lemma selectBrackets_choice (groups : list (list exposure)) :
  (2 <= List.length groups)%nat ->
  exists n : nat,
    selectBrackets groups = Ok (Z.of_nat n) /\
    In n (map (@List.length exposure) groups) /\
    (forall k, occurrences groups k <= occurrences groups n)%nat /\
    (forall k, occurrences groups k = occurrences groups n -> k <= n)%nat.
Proof.
  intros Hlen. unfold occurrences.
  destruct (bracketSizes_spec groups) as (Hnd & Hpos & Hcount).
  assert (bracketSizes groups <> []) as Hne.
  { destruct groups as [|g groups]; [ simpl in Hlen; lia | ].
    intros E. specialize (Hcount (List.length g)). rewrite E in Hcount.
    simpl in Hcount.
    destruct (Nat.eq_dec (List.length g) (List.length g)); [ | congruence ].
    discriminate. }
  destruct (bestTuple_spec _ Hne) as ([n cnt] & Hbest & Hin & Hmax).
  pose proof (count_of_In _ _ _ Hnd Hin) as Hcnt. rewrite Hcount in Hcnt.
  assert (1 <= cnt)%nat as Hcnt1
    by (rewrite Forall_forall in Hpos; apply (Hpos _ Hin)).
  assert (forall k, (1 <= count_of k (bracketSizes groups))%nat ->
                    entry_le (k, count_of k (bracketSizes groups)) (n, cnt))
    as Hle by (intros k Hk; apply Hmax, In_count_of, Hk).
  exists n. repeat split.
  - unfold selectBrackets.
    destruct groups as [|g [|g' groups]]; try (simpl in Hlen; lia).
    destruct (bracketSizes (g :: g' :: groups)) as [|t c] eqn:E;
      [ congruence | ].
    simpl List.length. simpl Nat.eqb. rewrite Hbest. reflexivity.
  - apply (count_occ_In Nat.eq_dec). lia.
  - intros k. specialize (Hle k). rewrite Hcount in Hle.
    unfold entry_le in Hle. simpl in Hle. lia.
  - intros k Ek. specialize (Hle k). rewrite Hcount in Hle.
    unfold entry_le in Hle. simpl in Hle. lia.
Qed.

(** X10: when two or more groups all have the same size, that size is
    reported. *)
Theorem regular_brackets_report_their_size (groups : list (list exposure))
    (k : nat) :
  (2 <= List.length groups)%nat ->
  Forall (fun g => List.length g = k) groups ->
  selectBrackets groups = Ok (Z.of_nat k).
Proof.
  intros Hlen Hk.
  destruct (selectBrackets_choice groups Hlen) as (n & -> & Hin & _).
  apply in_map_iff in Hin. destruct Hin as (g & <- & Hg).
  rewrite Forall_forall in Hk. rewrite (Hk g Hg). reflexivity.
Qed.

Lemma regular_brackets_witness :
  selectBrackets [[(Float 2, Float 1, Float 100); (Float 2, Float 2, Float 100); (Float 2, Float 4, Float 100)];
                  [(Float 4, Float 1, Float 100); (Float 4, Float 2, Float 100); (Float 4, Float 4, Float 100)]]
  = Ok (Z.of_nat 3).
Proof.
  apply regular_brackets_report_their_size.
  - simpl. lia.
  - repeat constructor.
Defined.

Lemma occurrences_permuted (groups groups' : list (list exposure)) (k : nat) :
  Permutation groups groups' -> occurrences groups k = occurrences groups' k.
Proof.
  intros HP. unfold occurrences.
  induction HP as [|g l l' HP IH|g g' l|l l' l'' HP1 IH1 HP2 IH2]; simpl; auto.
  - rewrite IH. reflexivity.
  - destruct (Nat.eq_dec (List.length g) k), (Nat.eq_dec (List.length g') k);
      reflexivity.
  - congruence.
Qed.

(** X11: the size reported does not depend on the order of the groups. *)
Theorem selectBrackets_permuted (groups groups' : list (list exposure)) :
  Permutation groups groups' ->
  selectBrackets groups = selectBrackets groups'.
Proof.
  intros HP. pose proof (Permutation_length HP) as Hlen.
  destruct groups as [|g [|g2 groups]].
  - apply Permutation_nil in HP. subst. reflexivity.
  - apply Permutation_length_1_inv in HP. subst. reflexivity.
  - destruct (selectBrackets_choice (g :: g2 :: groups))
      as (n & -> & _ & H1 & H2); [ simpl; lia | ].
    destruct (selectBrackets_choice groups')
      as (n' & -> & _ & H1' & H2'); [ rewrite <- Hlen; simpl; lia | ].
    assert (forall k, occurrences (g :: g2 :: groups) k = occurrences groups' k)
      as Ho by (intros k; apply occurrences_permuted, HP).
    assert (n = n') as ->; [ | reflexivity ].
    pose proof (H1 n') as A. pose proof (H1' n) as B.
    rewrite <- !Ho in B. rewrite Ho in A.
    assert (occurrences groups' n' = occurrences groups' n) as E
      by (rewrite <- !Ho in *; lia).
    pose proof (H2' n (eq_sym E)) as C.
    rewrite <- !Ho in E. pose proof (H2 n' E) as D'. lia.
Qed.

Lemma selectBrackets_permuted_witness :
  selectBrackets [[(Float 2, Float 1, Float 100)]; [(Float 2, Float 1, Float 100); (Float 2, Float 2, Float 100)];
                  [(Float 2, Float 1, Float 100); (Float 2, Float 2, Float 100)]]
  = selectBrackets [[(Float 2, Float 1, Float 100); (Float 2, Float 2, Float 100)];
                    [(Float 2, Float 1, Float 100)];
                    [(Float 2, Float 1, Float 100); (Float 2, Float 2, Float 100)]].
Proof. apply selectBrackets_permuted. apply perm_swap. Defined.

(** ** The detection: bounds, early returns, one exposure *)

Lemma size_le_total (groups : list (list exposure)) (n : nat) :
  In n (map (@List.length exposure) groups) ->
  (n <= List.length (List.concat groups))%nat.
Proof.
  induction groups as [|g groups IH]; simpl; [ tauto | ].
  rewrite length_app. intros [<-|Hin]; [ lia | ].
  specialize (IH Hin). lia.
Qed.

Lemma selectBrackets_bound (groups : list (list exposure)) (nb : Z) :
  selectBrackets groups = Ok nb ->
  (0 <= nb <= Z.of_nat (List.length (List.concat groups)))%Z.
Proof.
  destruct groups as [|g [|g2 groups]].
  - intros [= <-]. simpl. lia.
  - unfold selectBrackets. simpl List.concat. rewrite app_nil_r.
    destruct (Nat.eqb_spec (List.length (py_set g)) 1) as [E|E];
      intros [= <-]; [ | lia ].
    destruct g as [|x g]; [ discriminate | ]. simpl. lia.
  - intros H.
    destruct (selectBrackets_choice (g :: g2 :: groups))
      as (n & Hn & Hin & _); [ simpl; lia | ].
    rewrite Hn in H. injection H as <-.
    apply size_le_total in Hin. lia.
Qed.

Lemma float_ltb_irrefl (e : float) : (e <? e)%float = false.
Proof.
  destruct (e <? e)%float eqn:E; auto.
  pose proof (float_ltb_asym _ _ E). congruence.
Qed.

Lemma py_set_all_equal (t : exposure) (l : list exposure) :
  l <> [] -> Forall (eq t) l -> exposure_eqb t t = true ->
  List.length (py_set l) = 1%nat.
Proof.
  intros Hne Hall Ht. induction Hall as [|x l <- Hall IH]; [ congruence | ].
  simpl. destruct l as [|y l]; [ reflexivity | ].
  assert (existsb (exposure_eqb t) (y :: l) = true) as ->.
  { inversion Hall; subst. simpl. rewrite Ht. reflexivity. }
  apply IH. discriminate.
Qed.

(** X12: images of one directory that all carry one exposure triple, which
    holds no NaN and has an exposure value, make one group and are reported
    as a single bracket: one exposure, several views. *)
Theorem one_exposure_many_views (D : string) (t : exposure) (e : float)
    (inputs : list input) :
  inputs <> [] ->
  Forall (fun i => snd i = t /\ dirname (fst i) = D) inputs ->
  exposure_eqb t t = true ->
  getExposure_default t = Ok e ->
  exists g,
    groupExposures (sort input_ltb inputs) = Ok [g] /\
    List.length g = List.length inputs /\
    selectBrackets [g] = Ok 1%Z.
Proof.
  intros Hne Hall Ht He.
  set (sorted := sort input_ltb inputs).
  assert (Forall (fun i => snd i = t /\ dirname (fst i) = D) sorted) as Hs.
  { rewrite Forall_forall in *. intros i Hi. apply Hall.
    eapply Permutation_in; [ apply sort_perm | exact Hi ]. }
  assert (sorted <> []) as Hne' by (apply sort_not_nil, Hne).
  destruct (walk_one_run D sorted (map (fun _ => e) sorted) walk_init)
    as (w' & Hw & Hg & Hx); simpl; auto; try discriminate.
  - eapply Forall_impl; [ | exact Hs ]. intros i [_ H]. exact H.
  - clear -Hs He. induction Hs as [|i l [Hi _] Hs IH]; simpl; constructor; auto.
    rewrite Hi. exact He.
  - clear. induction sorted as [|i l IH]; simpl; constructor; auto.
    destruct l; simpl; constructor. apply float_ltb_irrefl.
  - exists (map snd sorted). unfold groupExposures. rewrite Hw. simpl.
    simpl in Hg, Hx. rewrite Hg, Hx. split; [ reflexivity | ].
    split.
    + rewrite length_map. apply Permutation_length, sort_perm.
    + unfold selectBrackets. rewrite (py_set_all_equal t); auto.
      * destruct sorted; [ congruence | discriminate ].
      * clear -Hs. induction Hs as [|i l [Hi _] Hs IH]; simpl; constructor;
          auto.
Qed.

Lemma one_exposure_many_views_witness :
  exists g,
    groupExposures (sort input_ltb [("/d/a.jpg", (Float 2.8, Float 0.01, Float 100));
                                    ("/d/c.jpg", (Float 2.8, Float 0.01, Float 100));
                                    ("/d/b.jpg", (Float 2.8, Float 0.01, Float 100))])
    = Ok [g] /\
    List.length g
    = List.length [("/d/a.jpg", (Float 2.8, Float 0.01, Float 100));
                   ("/d/c.jpg", (Float 2.8, Float 0.01, Float 100));
                   ("/d/b.jpg", (Float 2.8, Float 0.01, Float 100))] /\
    selectBrackets [g] = Ok 1%Z.
Proof.
  apply (one_exposure_many_views "/d" (Float 2.8, Float 0.01, Float 100)
           0.0012755102040816328%float).
  - discriminate.
  - repeat constructor.
  - vm_compute. reflexivity.
  - vm_compute. reflexivity.
Defined.

Section DetectionFacts.

Variable libm_pow2 : float -> float.
Variable float_of_str : string -> option float.

Lemma parseViewpoints_length (vps : list viewpoint) (acc : list input) :
  match parseViewpoints libm_pow2 float_of_str vps acc with
  | Ok (inl nb) => (nb = 0 \/ nb = 1)%Z /\ (1 <= List.length vps)%nat
  | Ok (inr inputs) =>
      List.length inputs = (List.length acc + List.length vps)%nat
  | Raise _ => True
  end.
Proof.
  revert acc; induction vps as [|vp vps IH]; intros acc; simpl.
  - lia.
  - destruct (parseViewpoint libm_pow2 float_of_str vp) as [[| |i]|];
      simpl; auto;
      try (split; [ auto | lia ]).
    specialize (IH (acc ++ [i])).
    destruct (parseViewpoints libm_pow2 float_of_str vps (acc ++ [i]))
      as [[nb|inputs]|]; auto.
    + destruct IH. split; [ auto | lia ].
    + rewrite IH, length_app. simpl. lia.
Qed.

(** X13: a bracket count that the detection returns lies between 0 and the
    number of viewpoints; for no viewpoint at all it is 0. *)
Theorem detected_count_bounded (vps : list viewpoint) (nb : Z) :
  detectBrackets libm_pow2 float_of_str vps = Ok nb ->
  (0 <= nb <= Z.of_nat (List.length vps))%Z.
Proof.
  unfold detectBrackets.
  pose proof (parseViewpoints_length vps []) as Hl.
  destruct (parseViewpoints libm_pow2 float_of_str vps [])
    as [[nb0|inputs]|]; cbn [bind]; [ | | discriminate ].
  - intros [= <-]. lia.
  - destruct (groupExposures (sort input_ltb inputs)) as [groups|] eqn:Eg;
      cbn [bind]; [ | discriminate ].
    intros H. apply selectBrackets_bound in H.
    destruct (groupExposures_spec _ _ Eg) as [Hc _].
    rewrite Hc, length_map in H.
    assert (List.length (sort input_ltb inputs) = List.length inputs) as Hs
      by apply Permutation_length, sort_perm.
    unfold input in *. rewrite Hs in H. simpl in Hl. lia.
Qed.

Lemma parseViewpoints_prefix (pre rest : list viewpoint) (acc : list input) :
  Forall (fun vp => exists i,
              parseViewpoint libm_pow2 float_of_str vp = Ok (Parsed i)) pre ->
  parseViewpoints libm_pow2 float_of_str (pre ++ rest) acc
  = parseViewpoints libm_pow2 float_of_str rest
      (acc ++ map (inputOf libm_pow2 float_of_str) pre).
Proof.
  revert acc; induction pre as [|vp pre IH]; intros acc H; simpl.
  - rewrite app_nil_r. reflexivity.
  - inversion H as [|? ? [i Hi] Hrest]; subst.
    unfold inputOf at 1. rewrite Hi. simpl.
    rewrite (IH _ Hrest), <- app_assoc. reflexivity.
Qed.

(** X14: the first viewpoint without metadata ends the detection with 0,
    whatever the viewpoints after it hold, when the viewpoints before it
    have reached [append]. *)
Theorem missing_metadata_reports_zero (pre post : list viewpoint)
    (vp : viewpoint) :
  Forall (fun v => exists i,
              parseViewpoint libm_pow2 float_of_str v = Ok (Parsed i)) pre ->
  vp_metadata vp = None ->
  detectBrackets libm_pow2 float_of_str (pre ++ vp :: post) = Ok 0%Z.
Proof.
  intros Hpre Hvp. unfold detectBrackets.
  rewrite (parseViewpoints_prefix _ _ _ Hpre). simpl.
  unfold parseViewpoint. rewrite Hvp. reflexivity.
Qed.

(** X15: a viewpoint whose aperture and shutter speed are both present and
    false as Python values (0, 0.0, false, an empty string for the shutter
    speed) ends the detection with 1, whatever the viewpoints after it hold,
    when the viewpoints before it have reached [append]. *)
Theorem falsy_exposure_reports_one (pre post : list viewpoint)
    (vp : viewpoint) (d : metadata) (fnumber : pyvalue) :
  Forall (fun v => exists i,
              parseViewpoint libm_pow2 float_of_str v = Ok (Parsed i)) pre ->
  vp_metadata vp = Some d ->
  readFnumber libm_pow2 d = Ok fnumber ->
  truthy fnumber = false ->
  truthy (findMetadata d ["ExposureTime"; "Exif:ShutterSpeedValue";
                          "ShutterSpeedValue"; "ShutterSpeed"]
                       (PyFloat (-1))) = false ->
  detectBrackets libm_pow2 float_of_str (pre ++ vp :: post) = Ok 1%Z.
Proof.
  intros Hpre Hvp Hf Hft Hst. unfold detectBrackets.
  rewrite (parseViewpoints_prefix _ _ _ Hpre).
  cbn [parseViewpoints]. unfold parseViewpoint.
  rewrite Hvp, Hf. cbn [bind]. rewrite Hft, Hst. reflexivity.
Qed.

End DetectionFacts.

(** ** update: a second call, the validity flag, the command line *)

Section UpdateAgain.

Variable libm_pow2 : float -> float.
Variable float_of_str : string -> option float.

(** X16: [update] reads nothing of what it writes: a second call on the
    node that a call leaves ends as the first did, with the same exception
    if any, and leaves the node as it is. *)
Theorem update_idempotent (n : node) :
  update libm_pow2 float_of_str (node_of (update libm_pow2 float_of_str n))
  = update libm_pow2 float_of_str n.
Proof.
  destruct n as [inst has user valid nb link]. unfold update.
  destruct inst; simpl; [ | reflexivity ].
  destruct has; simpl; [ | reflexivity ].
  destruct link as [u|]; simpl; [ | reflexivity ].
  destruct (user =? 0)%Z eqn:Eu; simpl.
  - destruct (findViewpoints u) as [vps|] eqn:Ev; simpl.
    + destruct (detectBrackets libm_pow2 float_of_str vps) as [nb'|e] eqn:Ed;
        simpl;
        rewrite Eu; simpl; rewrite Ev, Ed; reflexivity.
    + rewrite Eu. simpl. rewrite Ev. reflexivity.
  - unfold forcedBrackets. simpl.
    destruct (up_viewpoints u) as [vps|] eqn:Ev; simpl.
    + destruct (Z.of_nat (List.length vps) mod user =? 0)%Z eqn:Em; simpl;
        rewrite Eu; simpl; unfold forcedBrackets; simpl; rewrite Ev; simpl;
        rewrite Em; reflexivity.
    + rewrite Eu. simpl. unfold forcedBrackets. simpl. rewrite Ev. reflexivity.
Qed.

(** X17: on a node of the current version, a call in automatic mode, or
    with no link on the input, leaves the validity flag up, also when the
    call raises: only a user-forced count that fails the division lowers
    the flag. *)
Theorem automatic_mode_resets_flag (n : node) :
  isInstance n = true -> hasUserNbBrackets n = true ->
  userNbBrackets n = 0%Z \/ input_link n = None ->
  validValue (node_of (update libm_pow2 float_of_str n)) = true.
Proof.
  intros Hi Hh Hm. unfold update. rewrite Hi, Hh. simpl.
  destruct (input_link n) as [u|] eqn:El; [ | reflexivity ].
  destruct Hm as [Hu|Hl]; [ | discriminate ].
  rewrite Hu. simpl.
  destruct (findViewpoints u) as [vps|]; [ | reflexivity ].
  destruct (detectBrackets libm_pow2 float_of_str vps); reflexivity.
Qed.

(** X18: after an [update] that returns on a linked node of the current
    version, [processChunk] runs nothing for a single bracket; otherwise the
    command line leaves the bracket parameters out exactly when the count
    was detected (no user-forced count) and is not 0, so the executable is
    told the count when the user forced it or the detection failed. *)
Theorem command_line_after_update (n n' : node) (cameraInitOutput : upstream) :
  hasUserNbBrackets n = true ->
  input_link n = Some cameraInitOutput ->
  update libm_pow2 float_of_str n = Returns n' ->
  processChunk n'
  = if (nbBrackets n' =? 1)%Z then None
    else if (userNbBrackets n =? 0)%Z && negb (nbBrackets n' =? 0)%Z
         then Some "aliceVision_LdrToHdrCalibration {allParams}"
         else Some "aliceVision_LdrToHdrCalibration {allParams}{bracketsParams}".
Proof.
  intros Hh Hl. unfold update. rewrite Hh.
  destruct (isInstance n); simpl; [ | discriminate ]. rewrite Hl.
  destruct (Z.eqb_spec (userNbBrackets n) 0) as [Eu|Eu]; simpl.
  - assert (forall nb,
               processChunk (set_nbBrackets nb (set_validValue true n))
               = if (nb =? 1)%Z then None
                 else if negb (nb =? 0)%Z
                      then Some "aliceVision_LdrToHdrCalibration {allParams}"
                      else Some "aliceVision_LdrToHdrCalibration {allParams}{bracketsParams}")
      as Hp.
    { intros nb. unfold processChunk. simpl. rewrite Eu.
      destruct (nb =? 1)%Z; auto. rewrite (Z.eqb_sym 0 nb).
      destruct (nb =? 0)%Z; reflexivity. }
    destruct (findViewpoints cameraInitOutput) as [vps|].
    + destruct (detectBrackets libm_pow2 float_of_str vps) as [nb|];
        [ | discriminate ].
      intros [= <-]. apply Hp.
    + intros [= <-]. apply Hp.
  - intros [= <-]. unfold processChunk, forcedBrackets.
    destruct (up_viewpoints cameraInitOutput) as [vps|]; simpl.
    + destruct (negb _); simpl; rewrite Z.eqb_refl;
        destruct (userNbBrackets n =? 1)%Z; reflexivity.
    + rewrite Z.eqb_refl. destruct (userNbBrackets n =? 1)%Z; reflexivity.
Qed.

End UpdateAgain.

Lemma automatic_mode_resets_flag_witness :
  validValue
    (node_of
       (update stub_pow2 stub_float_of_str
          (mkNode true true 0 false 3
             (Some (Upstream (Some [shot "/d/a.jpg" 5e-324 1 1]) None)))))
  = true.
Proof.
  apply automatic_mode_resets_flag.
  - reflexivity.
  - reflexivity.
  - left. reflexivity.
Defined.

Lemma command_line_after_update_witness :
  processChunk
    (mkNode true true 0 true 2
       (Some (Upstream (Some [shot "/d/a.jpg" 2 1 100;
                              shot "/d/b.jpg" 2 2 100]) None)))
  = if (nbBrackets
          (mkNode true true 0 true 2
             (Some (Upstream (Some [shot "/d/a.jpg" 2 1 100;
                                    shot "/d/b.jpg" 2 2 100]) None)))
        =? 1)%Z then None
    else if (userNbBrackets
               (mkNode true true 0 false 0
                  (Some (Upstream (Some [shot "/d/a.jpg" 2 1 100;
                                         shot "/d/b.jpg" 2 2 100]) None)))
             =? 0)%Z
            && negb (nbBrackets
                       (mkNode true true 0 true 2
                          (Some (Upstream (Some [shot "/d/a.jpg" 2 1 100;
                                                 shot "/d/b.jpg" 2 2 100])
                                          None)))
                     =? 0)%Z
         then Some "aliceVision_LdrToHdrCalibration {allParams}"
         else Some "aliceVision_LdrToHdrCalibration {allParams}{bracketsParams}".
Proof.
  apply (command_line_after_update stub_pow2 stub_float_of_str
           (mkNode true true 0 false 0
              (Some (Upstream (Some [shot "/d/a.jpg" 2 1 100;
                                     shot "/d/b.jpg" 2 2 100]) None)))
           _
           (Upstream (Some [shot "/d/a.jpg" 2 1 100;
                            shot "/d/b.jpg" 2 2 100]) None)).
  - reflexivity.
  - reflexivity.
  - vm_compute. reflexivity.
Defined.

Lemma detected_count_bounded_witness :
  (0 <= 2
   <= Z.of_nat (List.length [shot "/d/a.jpg" 2 1 100;
                             shot "/d/b.jpg" 2 2 100]))%Z.
Proof.
  apply (detected_count_bounded stub_pow2 stub_float_of_str).
  vm_compute. reflexivity.
Defined.

Lemma missing_metadata_witness :
  detectBrackets stub_pow2 stub_float_of_str
    ([shot "/d/a.jpg" 2 1 100]
     ++ mkViewpoint "/d/b.jpg" None
        :: [mkViewpoint "/d/c.jpg" (Some [("FNumber", PyNone)])])
  = Ok 0%Z.
Proof.
  apply missing_metadata_reports_zero.
  - repeat constructor. eexists. vm_compute. reflexivity.
  - reflexivity.
Defined.

Lemma falsy_exposure_witness :
  detectBrackets stub_pow2 stub_float_of_str
    ([shot "/d/a.jpg" 2 1 100]
     ++ mkViewpoint "/d/b.jpg" (Some [("FNumber", PyInt 0);
                                      ("ExposureTime", PyFloat 0)])
        :: [mkViewpoint "/d/c.jpg" None])
  = Ok 1%Z.
Proof.
  apply (falsy_exposure_reports_one stub_pow2 stub_float_of_str _ _ _
           [("FNumber", PyInt 0); ("ExposureTime", PyFloat 0)] (PyInt 0)).
  - repeat constructor. eexists. vm_compute. reflexivity.
  - reflexivity.
  - reflexivity.
  - reflexivity.
  - reflexivity.
Defined.

(** ** The number of groups *)

Lemma nonempty_groups_length (groups : list (list exposure)) :
  Forall (fun g => g <> []) groups ->
  (List.length groups <= List.length (List.concat groups))%nat.
Proof.
  induction 1 as [|g groups Hg Hgs IH]; simpl; auto.
  rewrite length_app. destruct g; [ congruence | simpl; lia ].
Qed.

Lemma groupExposures_not_nil (inputs : list input)
    (groups : list (list exposure)) :
  groupExposures inputs = Ok groups -> groups <> [].
Proof.
  unfold groupExposures. destruct (walk_loop walk_init inputs) as [w|];
    simpl; [ | discriminate ].
  intros [= <-] E. apply app_eq_nil in E. destruct E; discriminate.
Qed.

(** X19: the walk returns at least one group and, for a list of images that
    is not empty, no more groups than images; for the empty list it returns
    the single empty group, which [update] reports as 0 brackets. *)
Theorem group_count_bounded (inputs : list input)
    (groups : list (list exposure)) :
  groupExposures inputs = Ok groups ->
  (1 <= List.length groups)%nat /\
  (inputs <> [] -> (List.length groups <= List.length inputs)%nat) /\
  (inputs = [] -> groups = [[]] /\ selectBrackets groups = Ok 0%Z).
Proof.
  intros H. split; [ | split ].
  - pose proof (groupExposures_not_nil _ _ H). destruct groups;
      [ congruence | simpl; lia ].
  - intros Hne. destruct (groupExposures_spec _ _ H) as [Hc Hn].
    pose proof (nonempty_groups_length _ (Hn Hne)) as Hl.
    rewrite Hc, length_map in Hl. exact Hl.
  - intros ->. injection H as <-. split; reflexivity.
Qed.

Lemma group_count_bounded_witness :
  (1 <= List.length [[(Float 2, Float 1, Float 100); (Float 2, Float 2, Float 100)];
                     [(Float 2, Float 1, Float 100)]])%nat /\
  ([("/d/a.jpg", (Float 2, Float 1, Float 100)); ("/d/b.jpg", (Float 2, Float 2, Float 100));
    ("/d/c.jpg", (Float 2, Float 1, Float 100))] <> [] ->
   (List.length [[(Float 2, Float 1, Float 100); (Float 2, Float 2, Float 100)]; [(Float 2, Float 1, Float 100)]]
    <= List.length [("/d/a.jpg", (Float 2, Float 1, Float 100));
                    ("/d/b.jpg", (Float 2, Float 2, Float 100));
                    ("/d/c.jpg", (Float 2, Float 1, Float 100))])%nat) /\
  ([("/d/a.jpg", (Float 2, Float 1, Float 100)); ("/d/b.jpg", (Float 2, Float 2, Float 100));
    ("/d/c.jpg", (Float 2, Float 1, Float 100))] = [] ->
   [[(Float 2, Float 1, Float 100); (Float 2, Float 2, Float 100)]; [(Float 2, Float 1, Float 100)]] = [[]] /\
   selectBrackets [[(Float 2, Float 1, Float 100); (Float 2, Float 2, Float 100)];
                   [(Float 2, Float 1, Float 100)]] = Ok 0%Z).
Proof.
  apply group_count_bounded. vm_compute. reflexivity.
Defined.

(** X20: the histogram of the groups that the walk returns is never empty,
    so the report of 0 for an empty histogram (line 288) is never reached,
    and the entries of the histogram count every group once. *)
Theorem histogram_never_empty (inputs : list input)
    (groups : list (list exposure)) :
  groupExposures inputs = Ok groups ->
  bracketSizes groups <> [] /\
  fold_right (fun t total => (snd t + total)%nat) 0%nat (bracketSizes groups)
  = List.length groups.
Proof.
  intros H. pose proof (groupExposures_not_nil _ _ H) as Hne. split.
  - destruct (bracketSizes_spec groups) as (_ & _ & Hcount).
    destruct groups as [|g groups]; [ congruence | ].
    intros E. specialize (Hcount (List.length g)). rewrite E in Hcount.
    simpl in Hcount.
    destruct (Nat.eq_dec (List.length g) (List.length g)); [ | congruence ].
    discriminate.
  - clear. unfold bracketSizes.
    assert (forall (c : counter) k,
               fold_right (fun t total => (snd t + total)%nat) 0%nat
                          (count_one k c)
               = S (fold_right (fun t total => (snd t + total)%nat) 0%nat c))
      as Hone.
    { induction c as [|[k' n] c IH]; intros k; simpl; auto.
      destruct (k =? k')%nat; simpl; auto. rewrite IH. lia. }
    assert (forall (gs : list (list exposure)) (c : counter),
               fold_right (fun t total => (snd t + total)%nat) 0%nat
                 (fold_left (fun c g => count_one (List.length g) c) gs c)
               = (List.length gs
                  + fold_right (fun t total => (snd t + total)%nat) 0%nat c)%nat)
      as Hall.
    { induction gs as [|g gs IH]; intros c; simpl; auto.
      rewrite IH, Hone. lia. }
    rewrite Hall. simpl. lia.
Qed.

Lemma histogram_never_empty_witness :
  bracketSizes [[(Float 2, Float 1, Float 100); (Float 2, Float 2, Float 100)]; [(Float 2, Float 1, Float 100)]]
  <> [] /\
  fold_right (fun t total => (snd t + total)%nat) 0%nat
    (bracketSizes [[(Float 2, Float 1, Float 100); (Float 2, Float 2, Float 100)];
                   [(Float 2, Float 1, Float 100)]])
  = List.length [[(Float 2, Float 1, Float 100); (Float 2, Float 2, Float 100)]; [(Float 2, Float 1, Float 100)]].
Proof.
  apply (histogram_never_empty
           [("/d/a.jpg", (Float 2, Float 1, Float 100)); ("/d/b.jpg", (Float 2, Float 2, Float 100));
            ("/d/c.jpg", (Float 2, Float 1, Float 100))]).
  vm_compute. reflexivity.
Defined.

(** ** update: the inputs on which it returns *)

Lemma getExposure_returns (exp : exposure) :
  dividesByZero exp = false -> exists e, getExposure_default exp = Ok e.
Proof.
  unfold dividesByZero, getExposure_default.
  destruct (exposure_values exp) as [[f s] iso].
  rewrite getExposure_eq. unfold exposureValue_amended.
  destruct (sensitivityFactor_total iso refIso_default) as [k Hk]. rewrite Hk.
  destruct (usable s || usable f) eqn:Eu; cbn [andb bind].
  - intros Hz. unfold scaledExposure, py_div. rewrite Hz.
    apply orb_true_iff in Eu.
    destruct (negb (usable s) && negb (usable f)) eqn:En; [ | simpl; eauto ].
    apply andb_true_iff in En. rewrite !negb_true_iff in En.
    destruct En as [Hs Hf], Eu as [Eu|Eu]; congruence.
  - intros _. apply orb_false_iff in Eu. destruct Eu as [-> ->]. simpl. eauto.
Qed.

Section Safety.

Variable libm_pow2 : float -> float.
Variable float_of_str : string -> option float.

Lemma float_of_int_in_range (z : Z) :
  int_in_range z = true ->
  float_of_int z = Ok (SF2Prim (binary_normalize prec emax z 0 false)).
Proof.
  unfold int_in_range, float_of_int. rewrite negb_true_iff. intros ->.
  reflexivity.
Qed.

Lemma py_float_convertible (v : pyvalue) :
  convertible float_of_str v = true -> exists x, py_float float_of_str v = Ok x.
Proof.
  destruct v as [|b|z|x|s]; simpl; try discriminate; eauto.
  - intros H. rewrite (float_of_int_in_range _ H). simpl. eauto.
  - destruct (float_of_str s); [ eauto | discriminate ].
Qed.

Lemma py_half_number (v : pyvalue) :
  number v = true -> py_half v = Ok (half v).
Proof.
  destruct v as [|b|z|x|s]; simpl; try discriminate; auto.
  intros H. rewrite (float_of_int_in_range _ H). reflexivity.
Qed.

(** The f-number of a record whose fields convert. *)
Lemma readFnumber_converts (d : metadata) :
  fieldsConvert libm_pow2 float_of_str d = true ->
  exists fnumber,
    readFnumber libm_pow2 d = Ok fnumber /\
    convertible float_of_str fnumber = true.
Proof.
  unfold fieldsConvert, readFnumber. rewrite !andb_true_iff.
  intros [[Hf _] _].
  generalize dependent (findMetadata d ["FNumber"] (PyStr "")).
  generalize (findMetadata d ["Exif:ApertureValue"; "ApertureValue";
                              "Aperture"] (PyStr "")).
  intros aperture fnumber.
  destruct (is_empty_str fnumber); [ | eauto ].
  destruct (is_empty_str aperture); cbn [orb]; [ eauto | ].
  unfold apexInRange. rewrite andb_true_iff, negb_true_iff.
  intros [Hn Hp]. rewrite (py_half_number _ Hn). cbn [bind].
  unfold py_pow2. rewrite Hp. cbn [bind]. eauto.
Qed.

Lemma parseViewpoint_converts (vp : viewpoint) (d : metadata) :
  vp_metadata vp = Some d ->
  fieldsConvert libm_pow2 float_of_str d = true ->
  parseViewpoint libm_pow2 float_of_str vp = Ok NoExposure \/
  appended libm_pow2 float_of_str vp.
Proof.
  intros Hd Hc. unfold appended, parseViewpoint. rewrite Hd.
  destruct (readFnumber_converts d Hc) as (fnumber & -> & Hf).
  unfold fieldsConvert in Hc. rewrite !andb_true_iff in Hc.
  destruct Hc as [[_ Hs] Hi]. cbn [bind].
  destruct (negb (truthy fnumber) && _); [ left; reflexivity | right ].
  destruct (py_float_convertible _ Hf) as [f ->].
  destruct (py_float_convertible _ Hs) as [s ->].
  destruct (py_float_convertible _ Hi) as [i ->].
  simpl. eauto.
Qed.

Lemma safe_computable (vp : viewpoint) :
  safe libm_pow2 float_of_str vp -> computable libm_pow2 float_of_str vp.
Proof.
  unfold safe, computable.
  destruct (vp_metadata vp) as [d|] eqn:Hd.
  - intros [Hc Hz].
    destruct (parseViewpoint_converts vp d Hd Hc) as [->|[i Hi]]; auto.
    unfold inputOf in Hz. rewrite Hi in *. apply getExposure_returns, Hz.
  - intros _. unfold parseViewpoint. rewrite Hd. exact I.
Qed.

Lemma detectBrackets_early (pre post : list viewpoint) (vp : viewpoint) :
  Forall (appended libm_pow2 float_of_str) pre ->
  (vp_metadata vp = None ->
   detectBrackets libm_pow2 float_of_str (pre ++ vp :: post) = Ok 0%Z) /\
  (falsyExposure libm_pow2 vp ->
   detectBrackets libm_pow2 float_of_str (pre ++ vp :: post) = Ok 1%Z).
Proof.
  intros Hpre. unfold detectBrackets.
  rewrite (parseViewpoints_prefix _ _ _ _ _ Hpre).
  cbn [parseViewpoints]. unfold parseViewpoint. split.
  - intros ->. reflexivity.
  - intros (d & fnumber & -> & -> & Hf & Hs). cbn [bind].
    rewrite Hf, Hs. reflexivity.
Qed.

(** C9, as amended: [update] handles no exception, so it does not return
    on every input.  It returns, with a value in [nbBrackets], for every
    user-forced count that is not zero, and in automatic mode when the data
    of every viewpoint let it: the viewpoint has no metadata, or its
    f-number, shutter speed and sensitivity are absent or are values that
    [float] accepts, without f-number its APEX aperture is absent or a
    number whose power is in range, and the aperture scaled by the
    sensitivity is not 0.0.  Then the validity flag is set, and the first
    viewpoint that is not appended gives the value: 0 when it has no
    metadata, 1 when its aperture and shutter speed are false. *)
Theorem update_returns (n : node) :
  isInstance n = true ->
  (userNbBrackets n = 0%Z ->
   forall cameraInitOutput viewpoints,
     input_link n = Some cameraInitOutput ->
     findViewpoints cameraInitOutput = Some viewpoints ->
     Forall (safe libm_pow2 float_of_str) viewpoints) ->
  exists n',
    update libm_pow2 float_of_str n = Returns n' /\
    (hasUserNbBrackets n = true -> userNbBrackets n = 0%Z ->
     validValue n' = true /\
     forall cameraInitOutput pre vp post,
       input_link n = Some cameraInitOutput ->
       findViewpoints cameraInitOutput = Some (pre ++ vp :: post) ->
       Forall (appended libm_pow2 float_of_str) pre ->
       (vp_metadata vp = None -> nbBrackets n' = 0%Z) /\
       (falsyExposure libm_pow2 vp -> nbBrackets n' = 1%Z)).
Proof.
  intros Hi H. unfold update. rewrite Hi. simpl.
  destruct (hasUserNbBrackets n); simpl;
    [ | eexists; split; [ reflexivity | discriminate ] ].
  destruct (input_link n) as [u|] eqn:Hl;
    [ | eexists; split;
        [ reflexivity
        | intros _ _; split; [ reflexivity | intros ? ? ? ?; discriminate ] ] ].
  destruct (Z.eqb_spec (userNbBrackets n) 0) as [E|E]; simpl;
    [ | eexists; split; [ reflexivity | intros _ E'; contradiction ] ].
  destruct (findViewpoints u) as [vps|] eqn:Hv;
    [ | eexists; split;
        [ reflexivity
        | intros _ _; split;
          [ reflexivity
          | intros ? ? ? ? [= <-] Hv'; rewrite Hv' in Hv; discriminate ] ] ].
  destruct (detectBrackets_computable libm_pow2 float_of_str vps) as [nb Hnb].
  { specialize (H E u vps eq_refl Hv). rewrite Forall_forall in *.
    intros vp Hvp. apply safe_computable, H, Hvp. }
  rewrite Hnb. eexists. split; [ reflexivity | ].
  intros _ _. split; [ reflexivity | ].
  intros u' pre vp post [= <-] Hv' Hpre. rewrite Hv' in Hv.
  injection Hv as <-. simpl.
  destruct (detectBrackets_early pre post vp Hpre) as [H0 H1].
  split; intros Hvp; [ rewrite (H0 Hvp) in Hnb | rewrite (H1 Hvp) in Hnb ];
    congruence.
Qed.

End Safety.

(** A node in automatic mode, linked to two shots of one directory. *)
Definition two_shots : node :=
  mkNode true true 0 true 0
    (Some (Upstream (Some [shot "/d/a.jpg" 2 1 100; shot "/d/b.jpg" 2 2 100])
                    None)).

Lemma update_returns_witness :
  exists n',
    update stub_pow2 stub_float_of_str two_shots = Returns n' /\
    (hasUserNbBrackets two_shots = true -> userNbBrackets two_shots = 0%Z ->
     validValue n' = true /\
     forall cameraInitOutput pre vp post,
       input_link two_shots = Some cameraInitOutput ->
       findViewpoints cameraInitOutput = Some (pre ++ vp :: post) ->
       Forall (appended stub_pow2 stub_float_of_str) pre ->
       (vp_metadata vp = None -> nbBrackets n' = 0%Z) /\
       (falsyExposure stub_pow2 vp -> nbBrackets n' = 1%Z)).
Proof.
  apply update_returns.
  - reflexivity.
  - intros _ u vps [= <-] [= <-].
    repeat constructor; vm_compute; split; reflexivity.
Defined.

(** C9, as stated, fails: an integer beyond the range of the floats
    raises [OverflowError] at [float(fnumber)], and an aperture that the
    sensitivity scales down to 0.0 raises [ZeroDivisionError] in
    [getExposure]. *)
Lemma update_raises :
  (forall libm_pow2 float_of_str,
      exists n,
        update libm_pow2 float_of_str
          (mkNode true true 0 true 0
             (Some (Upstream
                      (Some [mkViewpoint "/d/a.jpg"
                               (Some [("FNumber", PyInt (10 ^ 400));
                                      ("ExposureTime", PyFloat 0.01)])])
                      None)))
        = Raises OverflowError n) /\
  (forall libm_pow2 float_of_str,
      exists n,
        update libm_pow2 float_of_str
          (mkNode true true 0 true 0
             (Some (Upstream (Some [shot "/d/a.jpg" 5e-324 1 1]) None)))
        = Raises ZeroDivisionError n).
Proof. split; intros; eexists; vm_compute; reflexivity. Qed.
